(** * ODL default functionals: a shallow embedding and its verified properties

    This development embeds the parts of
    [odl/solvers/functional/default_functionals.py] that decide the checked
    properties: the Lp-norm family, the indicator functionals, the
    Kullback-Leibler family, [QuadraticForm] and [Huber].

    Numeric model.  The code computes on NumPy [float64] values.  They are
    embedded as extended reals with a not-a-number element ([fl] below):
    finite values carry a real number and arithmetic on them is exact, while
    the IEEE-754 rules for infinities and NaN (which is what the code's
    [isfinite] guards, comparisons and divisions by zero depend on) are
    written out case by case.  Rounding, overflow, underflow and the sign
    of zero are not part of the model. *)

From Stdlib Require Import Reals Lra List Bool Arith ZArith Lia.
Import ListNotations.

Open Scope R_scope.

(** ** Floating-point values *)

Module Float.

Inductive fl : Type :=
| Fin (r : R)   (* a finite value *)
| PInf          (* +inf *)
| NInf          (* -inf *)
| NaN.          (* nan *)

Definition Rltb (a b : R) : bool := if Rlt_dec a b then true else false.
Definition Rleb (a b : R) : bool := if Rle_dec a b then true else false.
Definition Reqb (a b : R) : bool := if Req_dec_T a b then true else false.

(** [np.isfinite], [np.isnan]. *)
Definition isfinite (x : fl) : bool :=
  match x with Fin _ => true | _ => false end.

Definition isnan (x : fl) : bool :=
  match x with NaN => true | _ => false end.

(** Unary minus and [abs]. *)
Definition fopp (x : fl) : fl :=
  match x with
  | Fin r => Fin (- r)
  | PInf => NInf
  | NInf => PInf
  | NaN => NaN
  end.

Definition fabs (x : fl) : fl :=
  match x with
  | Fin r => Fin (Rabs r)
  | PInf | NInf => PInf
  | NaN => NaN
  end.

(** IEEE addition: [inf + (-inf)] is NaN. *)
Definition fadd (x y : fl) : fl :=
  match x, y with
  | NaN, _ | _, NaN => NaN
  | Fin a, Fin b => Fin (a + b)
  | PInf, NInf | NInf, PInf => NaN
  | PInf, _ | _, PInf => PInf
  | NInf, _ | _, NInf => NInf
  end.

Definition fsub (x y : fl) : fl := fadd x (fopp y).

(** The infinity whose sign is that of the finite factor [r]; [0 * inf] is
    NaN. *)
Definition inf_signed (r : R) (pos : fl) : fl :=
  if Rlt_dec 0 r then pos
  else if Rlt_dec r 0 then fopp pos
  else NaN.

Definition fmul (x y : fl) : fl :=
  match x, y with
  | NaN, _ | _, NaN => NaN
  | Fin a, Fin b => Fin (a * b)
  | Fin a, PInf | PInf, Fin a => inf_signed a PInf
  | Fin a, NInf | NInf, Fin a => inf_signed a NInf
  | PInf, PInf | NInf, NInf => PInf
  | PInf, NInf | NInf, PInf => NInf
  end.

(** NumPy division: a finite value divided by zero is a signed infinity
    ([0 / 0] is NaN), with a warning and no exception. *)
Definition fdiv (x y : fl) : fl :=
  match x, y with
  | NaN, _ | _, NaN => NaN
  | Fin a, Fin b =>
      if Req_dec_T b 0 then inf_signed a PInf else Fin (a / b)
  | Fin _, PInf | Fin _, NInf => Fin 0
  | PInf, Fin b => if Rlt_dec b 0 then NInf else PInf
  | NInf, Fin b => if Rlt_dec b 0 then PInf else NInf
  | PInf, PInf | PInf, NInf | NInf, PInf | NInf, NInf => NaN
  end.

(** Comparisons: every comparison with NaN is [False]. *)
Definition feqb (x y : fl) : bool :=
  match x, y with
  | Fin a, Fin b => Reqb a b
  | PInf, PInf | NInf, NInf => true
  | _, _ => false
  end.

Definition fltb (x y : fl) : bool :=
  match x, y with
  | NaN, _ | _, NaN => false
  | Fin a, Fin b => Rltb a b
  | Fin _, PInf => true
  | Fin _, NInf => false
  | PInf, _ => false
  | NInf, NInf => false
  | NInf, _ => true
  end.

Definition fleb (x y : fl) : bool :=
  match x, y with
  | NaN, _ | _, NaN => false
  | Fin a, Fin b => Rleb a b
  | Fin _, PInf => true
  | Fin _, NInf => false
  | PInf, PInf => true
  | PInf, _ => false
  | NInf, _ => true
  end.

Definition fgtb (x y : fl) : bool := fltb y x.
Definition fgeb (x y : fl) : bool := fleb y x.

(** [np.log]: [log 0 = -inf], the logarithm of a negative number is NaN. *)
Definition flog (x : fl) : fl :=
  match x with
  | Fin r => if Rlt_dec 0 r then Fin (ln r)
             else if Req_dec_T r 0 then NInf else NaN
  | PInf => PInf
  | NInf | NaN => NaN
  end.

(** [np.exp]. *)
Definition fexp (x : fl) : fl :=
  match x with
  | Fin r => Fin (exp r)
  | PInf => PInf
  | NInf => Fin 0
  | NaN => NaN
  end.

(** [np.sqrt]: the square root of a negative number is NaN. *)
Definition fsqrt (x : fl) : fl :=
  match x with
  | Fin r => if Rlt_dec r 0 then NaN else Fin (sqrt r)
  | PInf => PInf
  | NInf | NaN => NaN
  end.

(** [np.sign]. *)
Definition fsign (x : fl) : fl :=
  match x with
  | Fin r => if Rlt_dec 0 r then Fin 1
             else if Rlt_dec r 0 then Fin (-1) else Fin 0
  | PInf => Fin 1
  | NInf => Fin (-1)
  | NaN => NaN
  end.

(** [scipy.special.xlogy]: [x * log y], and [0] when [x = 0] unless [y] is
    NaN. *)
Definition xlogy (x y : fl) : fl :=
  if feqb x (Fin 0) && negb (isnan y) then Fin 0 else fmul x (flog y).

End Float.
Import Float.


(** ** Python exceptions and results *)

Inductive error : Type :=
| RuntimeError
| ValueError
| TypeError
| AttributeError
| NotImplementedError
| ZeroDivisionError.

Inductive Result (A : Type) : Type :=
| Ok (a : A)
| Err (e : error).

Arguments Ok {A} a.
Arguments Err {A} e.

Definition bind {A B : Type} (r : Result A) (k : A -> Result B) : Result B :=
  match r with
  | Ok a => k a
  | Err e => Err e
  end.

Notation "x <- r ;; k" := (bind r (fun x => k))
  (at level 61, r at next level, right associativity).

(** ** Spaces and elements

    The vector-space collaborator is not part of the functionals' source
    file.  It is modelled as [rn(n)] with its default (unweighted) inner
    product and 2-norm: an element is the list of its components. *)

(** Modelled from the spec: the dtype of a space, double precision or
    not. *)
Inductive dtype : Type := float64 | float32.

Definition dtype_eqb (a b : dtype) : bool :=
  match a, b with
  | float64, float64 | float32, float32 => true
  | _, _ => false
  end.

(** Modelled from the spec: a tensor space, with its [size] and
    [dtype]. *)
Record TensorSpace : Type := mkSpace { size : nat; dtype_of : dtype }.

Definition rn (n : nat) : TensorSpace := mkSpace n float64.

Definition space_eqb (a b : TensorSpace) : bool :=
  Nat.eqb (size a) (size b) && dtype_eqb (dtype_of a) (dtype_of b).

Definition element : Type := list fl.

(** Modelled from the spec: membership [x in space]. *)
Definition in_space (sp : TensorSpace) (x : element) : Prop :=
  length x = size sp.

(** Modelled from the spec: the special elements [space.zero()] and
    [space.one()]. *)
Definition zero (sp : TensorSpace) : element := repeat (Fin 0) (size sp).
Definition one (sp : TensorSpace) : element := repeat (Fin 1) (size sp).

(** Elementwise binary operation of two elements. *)
Definition vzip (f : fl -> fl -> fl) (x y : element) : element :=
  map (fun p => f (fst p) (snd p)) (combine x y).

(** Modelled from the spec: the reduction [x.ufuncs.sum()]. *)
Definition fsum (x : element) : fl := fold_right fadd (Fin 0) x.

(** Modelled from the spec: the inner product [x.inner(y)] and the norm
    [x.norm()] of [rn(n)]. *)
Definition inner (x y : element) : fl := fsum (vzip fmul x y).
Definition norm (x : element) : fl := fsqrt (inner x x).

(** Modelled from the spec: what [x.inner(other)] accepts.  The argument
    is an element of the space or some other array, and the inner product
    raises [LinearSpaceTypeError], a [TypeError], unless it is an element
    of the space.  [np.not_equal(x, c)] is an array of truth values, which
    is no element of a real space. *)
Inductive array : Type :=
| Real (x : element)
| Boolean (mask : list bool).

Definition not_equal (x : element) (c : fl) : array :=
  Boolean (map (fun a => negb (feqb a c)) x).

Definition space_inner (x : element) (other : array) : Result fl :=
  match other with
  | Real y => Ok (inner x y)
  | Boolean _ => Err TypeError
  end.

(** Modelled from the spec: the reductions [x.ufuncs.max()] and
    [x.ufuncs.min()].  As in NumPy they propagate NaN, and the reduction of
    an empty array raises [ValueError]. *)
Definition fmax (a b : fl) : fl :=
  if isnan a || isnan b then NaN else if fltb a b then b else a.

Definition fmin (a b : fl) : fl :=
  if isnan a || isnan b then NaN else if fltb b a then b else a.

Definition ufuncs_max (x : element) : Result fl :=
  match x with
  | [] => Err ValueError
  | a :: t => Ok (fold_left fmax t a)
  end.

Definition ufuncs_min (x : element) : Result fl :=
  match x with
  | [] => Err ValueError
  | a :: t => Ok (fold_left fmin t a)
  end.

(** Modelled from the spec: a domain is a tensor space or a power space
    [ProductSpace(base, m)], whose elements have [m] components in
    [base]. *)
Inductive Domain : Type :=
| Tensor (sp : TensorSpace)
| Product (base : TensorSpace) (m : nat).

Definition Elem (d : Domain) : Type :=
  match d with
  | Tensor _ => element
  | Product _ _ => list element
  end.

(** Modelled from the spec: an element together with the space it belongs
    to ([vector.space]). *)
Record LinearSpaceElement : Type :=
  mkElement { space : TensorSpace; data : element }.

(** ** Operators (external collaborator) *)

(** Modelled from the spec: [ZeroOperator(domain)], the zero operator on
    [domain].  It computes [0 * x], so that a component of [x] that is
    infinite or NaN comes back as NaN. *)
Definition ZeroOperator (domain : TensorSpace) (x : element) : element :=
  map (fmul (Fin 0)) x.

(** Modelled from the spec: the operator contract consumed by
    [QuadraticForm], a domain-to-domain map with a call operation that
    exposes an adjoint and an inverse operator. *)
Class Operator (Op : Type) : Type := {
  op_domain : Op -> TensorSpace;
  op_call : Op -> element -> element;
  op_adjoint : Op -> Op;
  op_inverse : Op -> Op
}.

(** Modelled from the spec: [ScalingOperator(domain, s)], multiplication by
    the real scalar [s]; it is self-adjoint and its inverse scales by
    [1 / s]. *)
Record ScalingOperator : Type :=
  mkScaling { sc_domain : TensorSpace; scalar : fl }.

#[export] Instance ScalingOperator_Operator : Operator ScalingOperator := {
  op_domain := sc_domain;
  op_call := fun A x => map (fmul (scalar A)) x;
  op_adjoint := fun A => A;
  op_inverse := fun A => mkScaling (sc_domain A) (fdiv (Fin 1) (scalar A))
}.

Definition IdentityOperator (domain : TensorSpace) : ScalingOperator :=
  mkScaling domain (Fin 1).

(** Modelled from the spec: [conj_exponent] of [odl.util], the exponent [q]
    with [1/p + 1/q = 1], that is [p / (p - 1)], where [q = inf] when
    [p = 1] (and [q = 1] when [p = inf]). *)
Definition conj_exponent (p : fl) : fl :=
  if feqb p (Fin 1) then PInf
  else if feqb p PInf then Fin 1
  else fdiv p (fsub p (Fin 1)).

(** The result of an operator call together with the divisors of the
    divisions it evaluated on the way. *)
Record traced (A : Type) : Type :=
  mkTraced { value : A; divisors : list fl }.

Arguments mkTraced {A} value divisors.
Arguments value {A} t.
Arguments divisors {A} t.

(** [x / s] for an element [x] and a scalar [s]. *)
Definition div_scalar (x : element) (s : fl) : traced element :=
  mkTraced (map (fun a => fdiv a s) x) [s].

(** ** The Lp-norm family *)

Section LpFamily.

(** [np.power], supplied by NumPy. *)
Variable np_power : fl -> fl -> fl.

Inductive Functional : Type :=
| LpNorm (domain : TensorSpace) (exponent : fl)
| L1Norm (domain : TensorSpace)
| L2Norm (domain : TensorSpace)
| IndicatorLpUnitBall (domain : TensorSpace) (exponent : fl).

Definition domain_of (f : Functional) : TensorSpace :=
  match f with
  | LpNorm sp _ | L1Norm sp | L2Norm sp | IndicatorLpUnitBall sp _ => sp
  end.

(** [L1Norm] and [L2Norm] are [LpNorm] with the exponent fixed by their
    constructors. *)
Definition exponent_of (f : Functional) : fl :=
  match f with
  | LpNorm _ e | IndicatorLpUnitBall _ e => e
  | L1Norm _ => Fin 1
  | L2Norm _ => Fin 2
  end.

(** [LpNorm._call].  With the exponent 0 the inner product is taken with
    the array of truth values [np.not_equal(x, 0)].  The arithmetic is
    exact: the rounding of the sums and the underflow of the squares under
    the root are not modelled. *)
Definition LpNorm_call (domain : TensorSpace) (exponent : fl) (x : element)
  : Result fl :=
  if feqb exponent (Fin 0) then
    space_inner (one domain) (not_equal x (Fin 0))
  else if feqb exponent (Fin 1) then
    Ok (inner (map fabs x) (one domain))
  else if feqb exponent (Fin 2) then
    Ok (fsqrt (inner x x))
  else if isfinite exponent then
    let tmp := map (fun a => np_power a exponent) (map fabs x) in
    Ok (np_power (inner tmp (one domain)) (fdiv (Fin 1) exponent))
  else if feqb exponent PInf then
    ufuncs_max (map fabs x)
  else if feqb exponent NInf then
    ufuncs_min (map fabs x)
  else Err RuntimeError.

(** [IndicatorLpUnitBall._call]. *)
Definition IndicatorLpUnitBall_call (domain : TensorSpace) (exponent : fl)
  (x : element) : Result fl :=
  x_norm <- LpNorm_call domain exponent x ;;
  Ok (if fgtb x_norm (Fin 1) then PInf else Fin 0).

(** Evaluation of a functional of the family. *)
Definition call (f : Functional) (x : element) : Result fl :=
  match f with
  | LpNorm sp e => LpNorm_call sp e x
  | L1Norm sp => LpNorm_call sp (Fin 1) x
  | L2Norm sp => LpNorm_call sp (Fin 2) x
  | IndicatorLpUnitBall sp e => IndicatorLpUnitBall_call sp e x
  end.

(** [LpNorm.convex_conj] and [IndicatorLpUnitBall.convex_conj]. *)
Definition convex_conj (f : Functional) : Functional :=
  match f with
  | LpNorm sp _ | L1Norm sp | L2Norm sp =>
      IndicatorLpUnitBall sp (conj_exponent (exponent_of f))
  | IndicatorLpUnitBall sp e =>
      if feqb e PInf then L1Norm sp
      else if feqb e (Fin 2) then L2Norm sp
      else LpNorm sp (conj_exponent e)
  end.

(** [L1Gradient._call]: the elementwise sign. *)
Definition L1Gradient_call (x : element) : traced element :=
  mkTraced (map fsign x) [].

(** [L2Gradient._call], the gradient operator of [LpNorm] with exponent
    2. *)
Definition L2Gradient_call (domain : TensorSpace) (x : element)
  : traced element :=
  let norm_of_x := norm x in
  if feqb norm_of_x (Fin 0) then mkTraced (zero domain) []
  else div_scalar x norm_of_x.

(** [LpNorm.gradient]: implemented for the exponents 1 and 2 only. *)
Definition LpNorm_gradient (domain : TensorSpace) (exponent : fl)
  : Result (element -> traced element) :=
  if feqb exponent (Fin 1) then Ok L1Gradient_call
  else if feqb exponent (Fin 2) then Ok (L2Gradient_call domain)
  else Err NotImplementedError.

(** Modelled from the spec: [PointwiseNorm(vfspace, p)], the operator that
    computes at each point the [p]-norm of the vector of component values. *)
Definition PointwiseNorm_call (base : TensorSpace) (exponent : fl)
  (xs : list element) : element :=
  if feqb exponent (Fin 1) then
    fold_right (vzip fadd) (zero base) (map (map fabs) xs)
  else if feqb exponent PInf then
    fold_right (vzip fmax) (zero base) (map (map fabs) xs)
  else if feqb exponent (Fin 2) then
    map fsqrt
      (fold_right (vzip fadd) (zero base)
         (map (map (fun a => fmul (fabs a) (fabs a))) xs))
  else
    map (fun s => np_power s (fdiv (Fin 1) exponent))
      (fold_right (vzip fadd) (zero base)
         (map (map (fun a => np_power (fabs a) exponent)) xs)).

(** Modelled from the spec: the exponent that [PointwiseNorm(vfspace,
    exponent)] keeps: that of the space, 2, when none is given; an exponent
    below 1 raises [ValueError]. *)
Definition PointwiseNorm_exponent (exponent : option fl) : Result fl :=
  match exponent with
  | None => Ok (Fin 2)
  | Some p => if fltb p (Fin 1) then Err ValueError else Ok p
  end.

(** [GroupL1Norm]: the constructor accepts power spaces only; the default
    exponent is that of the space, 2. *)
Record GroupL1Norm : Type :=
  mkGroupL1Norm { gl_base : TensorSpace; gl_m : nat; gl_exponent : fl }.

Definition GroupL1Norm_init (vfspace : Domain) (exponent : option fl)
  : Result GroupL1Norm :=
  match vfspace with
  | Tensor _ => Err TypeError
  | Product base m =>
      p <- PointwiseNorm_exponent exponent ;;
      Ok (mkGroupL1Norm base m p)
  end.

(** [GroupL1Norm._call]. *)
Definition GroupL1Norm_call (f : GroupL1Norm) (x : list element) : fl :=
  let pointwise_norm := PointwiseNorm_call (gl_base f) (gl_exponent f) x in
  inner pointwise_norm (one (gl_base f)).

(** The pointwise magnitude computed at the start of [Huber._call]: the
    pointwise 2-norm on a product space, the absolute value otherwise; it
    lives in [norm_space]. *)
Definition norm_space (domain : Domain) : TensorSpace :=
  match domain with
  | Tensor sp => sp
  | Product base _ => base
  end.

Definition Huber_norm (domain : Domain) : Elem domain -> element :=
  match domain return Elem domain -> element with
  | Product base _ => fun x => PointwiseNorm_call base (Fin 2) x
  | Tensor _ => fun x => map fabs x
  end.

(** [Huber._call]. *)
Definition Huber_call (domain : Domain) (gamma : fl) (x : Elem domain) : fl :=
  let norm := Huber_norm domain x in
  let tmp :=
    if fgtb gamma (Fin 0) then
      map (fun t =>
             if fgeb t gamma then fsub t (fdiv gamma (Fin 2))
             else fmul (fmul t t) (fdiv (Fin 1) (fmul (Fin 2) gamma)))
          norm
    else norm in
  inner tmp (one (norm_space domain)).

End LpFamily.

(** ** Indicator functionals *)

(** [IndicatorZero(space, constant)]. *)
Record IndicatorZero : Type :=
  mkIndicatorZero { iz_domain : TensorSpace; iz_constant : fl }.

(** [IndicatorZero._call]. *)
Definition IndicatorZero_call (f : IndicatorZero) (x : element) : fl :=
  if feqb (norm x) (Fin 0) then iz_constant f else PInf.


(** [IndicatorSimplex(space, diameter, sum_rtol)]. *)
Record IndicatorSimplex : Type :=
  mkIndicatorSimplex { is_domain : TensorSpace; diameter : fl; sum_rtol : fl }.

(** [IndicatorSimplex.__init__]: without [sum_rtol] the tolerance depends
    on the size and the dtype of the space. *)
Definition IndicatorSimplex_init (space : TensorSpace) (diameter : fl)
  (sum_rtol : option fl) : IndicatorSimplex :=
  let sum_rtol :=
    match sum_rtol with
    | Some t => t
    | None =>
        if dtype_eqb (dtype_of space) float64
        then fmul (Fin 1e-10) (Fin (INR (size space)))
        else fmul (Fin 1e-6) (Fin (INR (size space)))
    end in
  mkIndicatorSimplex space diameter sum_rtol.

(** [IndicatorSimplex._call]. *)
Definition IndicatorSimplex_call (f : IndicatorSimplex) (x : element) : fl :=
  let sum_constr :=
    fleb (fabs (fsub (fdiv (fsum x) (diameter f)) (Fin 1))) (sum_rtol f) in
  let nonneq_constr := forallb (fun a => fgeb a (Fin 0)) x in
  if sum_constr && nonneq_constr then Fin 0 else PInf.

(** ** The Kullback-Leibler family

    Each functional holds an optional prior of its domain; [None] stands for
    the one-element. *)

(** The prior of a functional is [None] or a nonnegative element of the
    domain of [x]. *)
Definition prior_ok (prior : option element) (x : element) : Prop :=
  match prior with
  | None => True
  | Some g =>
      length g = length x /\ Forall (fun gi => fleb (Fin 0) gi = true) g
  end.

(** [KullbackLeibler._call]. *)
Definition KullbackLeibler_call (domain : TensorSpace)
  (prior : option element) (x : element) : fl :=
  let res :=
    match prior with
    | None =>
        inner (vzip fsub (map (fun a => fsub a (Fin 1)) x) (map flog x))
              (one domain)
    | Some g =>
        let xlogy := vzip xlogy g (vzip fdiv g x) in
        inner (vzip fadd (vzip fsub x g) xlogy) (one domain)
    end in
  if negb (isfinite res) then PInf else res.

(** [KLGradient._call]. *)
Definition KLGradient_call (prior : option element) (x : element) : element :=
  match prior with
  | None => map (fun a => fadd (fdiv (Fin (-1)) a) (Fin 1)) x
  | Some g => map (fun a => fadd a (Fin 1)) (vzip fdiv (map fopp g) x)
  end.

(** [KullbackLeiblerConvexConj._call]. *)
Definition KullbackLeiblerConvexConj_call (domain : TensorSpace)
  (prior : option element) (x : element) : fl :=
  let res :=
    match prior with
    | None => fopp (inner (map flog (map (fsub (Fin 1)) x)) (one domain))
    | Some g =>
        let xlogy := vzip xlogy g (map (fsub (Fin 1)) x) in
        fopp (inner xlogy (one domain))
    end in
  if negb (isfinite res) then PInf else res.

(** [KullbackLeiblerCrossEntropy._call]. *)
Definition KullbackLeiblerCrossEntropy_call (domain : TensorSpace)
  (prior : option element) (x : element) : fl :=
  let res :=
    match prior with
    | None =>
        let xlogx := vzip xlogy x x in
        inner (vzip fadd (map (fsub (Fin 1)) x) xlogx) (one domain)
    | Some g =>
        let xlogy := vzip xlogy x (vzip fdiv x g) in
        inner (vzip fadd (vzip fsub g x) xlogy) (one domain)
    end in
  if negb (isfinite res) then PInf else res.

(** [KLCrossEntropyGradient._call]: raises [ValueError] unless every
    component of the logarithm is finite. *)
Definition KLCrossEntropyGradient_call (prior : option element) (x : element)
  : Result element :=
  let tmp :=
    match prior with
    | None => map flog x
    | Some g => map flog (vzip fdiv x g)
    end in
  if forallb isfinite tmp then Ok tmp else Err ValueError.

(** [KullbackLeiblerCrossEntropyConvexConj._call]. *)
Definition KullbackLeiblerCrossEntropyConvexConj_call (domain : TensorSpace)
  (prior : option element) (x : element) : fl :=
  match prior with
  | None =>
      inner (map (fun a => fsub a (Fin 1)) (map fexp x)) (one domain)
  | Some g =>
      inner (vzip fmul g (map (fun a => fsub a (Fin 1)) (map fexp x)))
            (one domain)
  end.

(** What the documentation of [KullbackLeiblerConvexConj] states for finite
    arguments below one: the sum of [- g_i * ln (1 - x_i)]. *)
Fixpoint KLCC_sum (g x : list R) : R :=
  match g, x with
  | gi :: g', xi :: x' => - gi * ln (1 - xi) + KLCC_sum g' x'
  | _, _ => 0
  end.

(** ** Quadratic forms *)

Section Quadratic.

Context {Op : Type} `{Operator Op}.

(** [QuadraticForm]: the attributes set by the constructor. *)
Record QuadraticForm : Type := mkQuadraticForm {
  qf_domain : TensorSpace;
  is_linear : bool;
  operator : option Op;
  vector : option LinearSpaceElement;
  constant : fl
}.

Definition is_none {A : Type} (o : option A) : bool :=
  match o with None => true | Some _ => false end.

(** [QuadraticForm.__init__].  The constant is a real number, hence always
    an element of the range. *)
Definition QuadraticForm_init (operator : option Op)
  (vector : option LinearSpaceElement) (constant : fl)
  : Result QuadraticForm :=
  match
    match operator, vector with
    | Some A, _ => Some (op_domain A)
    | None, Some b => Some (space b)
    | None, None => None
    end
  with
  | None => Err ValueError
  | Some domain =>
      if match operator, vector with
         | Some A, Some b => negb (space_eqb (space b) (op_domain A))
         | _, _ => false
         end
      then Err ValueError
      else Ok (mkQuadraticForm domain
                 (is_none operator && feqb constant (Fin 0))
                 operator vector constant)
  end.

(** [QuadraticForm._call]; a form with neither operator nor vector cannot
    be constructed. *)
Definition QuadraticForm_call (f : QuadraticForm) (x : element) : Result fl :=
  match operator f, vector f with
  | None, Some b => Ok (fadd (inner (data b) x) (constant f))
  | None, None => Err AttributeError
  | Some A, None => Ok (fadd (inner x (op_call A x)) (constant f))
  | Some A, Some b =>
      let tmp := op_call A x in
      let tmp := vzip fadd tmp (data b) in
      Ok (fadd (inner x tmp) (constant f))
  end.

(** The functionals [QuadraticForm.convex_conj] can return: a quadratic
    form, or an [IndicatorZero], possibly translated by the vector. *)
Inductive Conjugate : Type :=
| ConjQuadraticForm (q : QuadraticForm)
| ConjIndicatorZero (f : IndicatorZero)
| ConjTranslated (f : IndicatorZero) (shift : LinearSpaceElement).

(** [QuadraticForm.convex_conj].  The new vector is an element of the
    domain of the inverse operator. *)
Definition QuadraticForm_convex_conj (f : QuadraticForm) : Result Conjugate :=
  match operator f with
  | None =>
      let tmp := mkIndicatorZero (qf_domain f) (fopp (constant f)) in
      match vector f with
      | None => Ok (ConjIndicatorZero tmp)
      | Some b => Ok (ConjTranslated tmp b)
      end
  | Some A =>
      match vector f with
      | None =>
          q <- QuadraticForm_init (Some (op_inverse A)) None
                 (fopp (constant f)) ;;
          Ok (ConjQuadraticForm q)
      | Some b =>
          let opinv := op_inverse A in
          let vector :=
            vzip fsub (map fopp (op_call (op_adjoint opinv) (data b)))
                      (op_call opinv (data b)) in
          let constant :=
            fsub (inner (data b) (op_call opinv (data b))) (constant f) in
          q <- QuadraticForm_init (Some opinv)
                 (Some (mkElement (op_domain opinv) vector)) constant ;;
          Ok (ConjQuadraticForm q)
      end
  end.

End Quadratic.

(** ** Constant functionals and the conjugate of the zero indicator *)

(** [ConstantFunctional(space, constant)]: the attributes set by the
    constructor. *)
Record ConstantFunctional : Type := mkConstantFunctional {
  cf_domain : TensorSpace;
  cf_is_linear : bool;
  cf_constant : fl
}.

(** [ConstantFunctional.__init__]. *)
Definition ConstantFunctional_init (space : TensorSpace) (constant : fl)
  : ConstantFunctional :=
  mkConstantFunctional space (feqb constant (Fin 0)) constant.

(** [ConstantFunctional._call]. *)
Definition ConstantFunctional_call (f : ConstantFunctional) (x : element)
  : fl :=
  cf_constant f.

(** [ConstantFunctional.gradient]. *)
Definition ConstantFunctional_gradient (f : ConstantFunctional)
  : element -> element :=
  ZeroOperator (cf_domain f).

(** [ConstantFunctional.convex_conj]. *)
Definition ConstantFunctional_convex_conj (f : ConstantFunctional)
  : IndicatorZero :=
  mkIndicatorZero (cf_domain f) (fopp (cf_constant f)).

(** [ZeroFunctional(space)]. *)
Definition ZeroFunctional (space : TensorSpace) : ConstantFunctional :=
  ConstantFunctional_init space (Fin 0).

(** [IndicatorZero.convex_conj]. *)
Definition IndicatorZero_convex_conj (f : IndicatorZero)
  : ConstantFunctional :=
  ConstantFunctional_init (iz_domain f) (fopp (iz_constant f)).

(** ** The squared L2-norm *)

(** [L2NormSquared._call]. *)
Definition L2NormSquared_call (x : element) : fl := inner x x.



(** ** Proximal factories

    The proximal factories are supplied by the proximal-operator
    collaborator; a functional selects one of them by its exponent. *)

Inductive ProximalFactory : Type :=
| proximal_l1 (space : Domain)
| proximal_l2 (space : Domain)
| proximal_linfty (space : Domain)
| proximal_l1_l2 (space : Domain)
| proximal_convex_conj_l1 (space : Domain)
| proximal_convex_conj_l2 (space : Domain)
| proximal_convex_conj_linfty (space : Domain)
| proximal_convex_conj_l1_l2 (space : Domain)
| NuclearNormProximal (outer_exp singular_vector_exp : fl)
| proximal_convex_conj (proximal : ProximalFactory).

(** [LpNorm.proximal]. *)
Definition LpNorm_proximal (domain : TensorSpace) (exponent : fl)
  : Result ProximalFactory :=
  if feqb exponent (Fin 1) then Ok (proximal_l1 (Tensor domain))
  else if feqb exponent (Fin 2) then Ok (proximal_l2 (Tensor domain))
  else if feqb exponent PInf then Ok (proximal_linfty (Tensor domain))
  else Err NotImplementedError.

(** [IndicatorLpUnitBall.proximal]. *)
Definition IndicatorLpUnitBall_proximal (domain : TensorSpace)
  (exponent : fl) : Result ProximalFactory :=
  if feqb exponent PInf then Ok (proximal_convex_conj_l1 (Tensor domain))
  else if feqb exponent (Fin 2) then
    Ok (proximal_convex_conj_l2 (Tensor domain))
  else if feqb exponent (Fin 1) then
    Ok (proximal_convex_conj_linfty (Tensor domain))
  else Err NotImplementedError.

(** The [proximal] property of a functional of the Lp family. *)
Definition proximal (f : Functional) : Result ProximalFactory :=
  match f with
  | IndicatorLpUnitBall sp e => IndicatorLpUnitBall_proximal sp e
  | _ => LpNorm_proximal (domain_of f) (exponent_of f)
  end.

(** [GroupL1Norm.proximal]. *)
Definition GroupL1Norm_proximal (f : GroupL1Norm) : Result ProximalFactory :=
  let space := Product (gl_base f) (gl_m f) in
  if feqb (gl_exponent f) (Fin 1) then Ok (proximal_l1 space)
  else if feqb (gl_exponent f) (Fin 2) then Ok (proximal_l1_l2 space)
  else Err NotImplementedError.

(** [IndicatorGroupL1UnitBall]: like [GroupL1Norm], the constructor accepts
    power spaces only and the default exponent is 2. *)
Record IndicatorGroupL1UnitBall : Type := mkIndicatorGroupL1UnitBall {
  igl_base : TensorSpace;
  igl_m : nat;
  igl_exponent : fl
}.

Definition IndicatorGroupL1UnitBall_init (vfspace : Domain)
  (exponent : option fl) : Result IndicatorGroupL1UnitBall :=
  match vfspace with
  | Tensor _ => Err TypeError
  | Product base m =>
      p <- PointwiseNorm_exponent exponent ;;
      Ok (mkIndicatorGroupL1UnitBall base m p)
  end.

(** [IndicatorGroupL1UnitBall.proximal]. *)
Definition IndicatorGroupL1UnitBall_proximal (f : IndicatorGroupL1UnitBall)
  : Result ProximalFactory :=
  let space := Product (igl_base f) (igl_m f) in
  if feqb (igl_exponent f) PInf then Ok (proximal_convex_conj_l1 space)
  else if feqb (igl_exponent f) (Fin 2) then
    Ok (proximal_convex_conj_l1_l2 space)
  else Err NotImplementedError.

(** [GroupL1Norm.convex_conj] and [IndicatorGroupL1UnitBall.convex_conj]. *)
Definition GroupL1Norm_convex_conj (f : GroupL1Norm)
  : Result IndicatorGroupL1UnitBall :=
  let conj_exp := conj_exponent (gl_exponent f) in
  IndicatorGroupL1UnitBall_init (Product (gl_base f) (gl_m f))
    (Some conj_exp).

Definition IndicatorGroupL1UnitBall_convex_conj
  (f : IndicatorGroupL1UnitBall) : Result GroupL1Norm :=
  let conj_exp := conj_exponent (igl_exponent f) in
  GroupL1Norm_init (Product (igl_base f) (igl_m f)) (Some conj_exp).

(** The factory for the convex conjugate that goes with a factory of a
    norm. *)
Definition conj_factory (p : ProximalFactory) : ProximalFactory :=
  match p with
  | proximal_l1 s => proximal_convex_conj_l1 s
  | proximal_l2 s => proximal_convex_conj_l2 s
  | proximal_linfty s => proximal_convex_conj_linfty s
  | proximal_l1_l2 s => proximal_convex_conj_l1_l2 s
  | other => proximal_convex_conj other
  end.

Definition Result_map {A B : Type} (g : A -> B) (r : Result A) : Result B :=
  match r with
  | Ok a => Ok (g a)
  | Err e => Err e
  end.

(** ** The nuclear norm: exponents, conjugates and proximal factories

    The evaluation needs a singular value decomposition and is not
    embedded; the exponents of the outer norm and of the norm of the
    singular vectors decide the conjugate and the proximal factory. *)

Record NuclearNorm : Type :=
  mkNuclearNorm { nn_outer_exp : fl; nn_singular_vector_exp : fl }.

Record IndicatorNuclearNormUnitBall : Type :=
  mkIndicatorNuclearNormUnitBall {
    inn_outer_exp : fl;
    inn_singular_vector_exp : fl
  }.

(** [NuclearNorm.proximal]. *)
Definition NuclearNorm_proximal (f : NuclearNorm) : Result ProximalFactory :=
  if negb (feqb (nn_outer_exp f) (Fin 1)) then Err NotImplementedError
  else if negb (feqb (nn_singular_vector_exp f) (Fin 1)
                || feqb (nn_singular_vector_exp f) (Fin 2)
                || feqb (nn_singular_vector_exp f) PInf)
  then Err NotImplementedError
  else Ok (NuclearNormProximal (nn_outer_exp f) (nn_singular_vector_exp f)).

(** [NuclearNorm.convex_conj]. *)
Definition NuclearNorm_convex_conj (f : NuclearNorm)
  : IndicatorNuclearNormUnitBall :=
  mkIndicatorNuclearNormUnitBall
    (conj_exponent (nn_outer_exp f))
    (conj_exponent (nn_singular_vector_exp f)).

(** [IndicatorNuclearNormUnitBall.convex_conj]. *)
Definition IndicatorNuclearNormUnitBall_convex_conj
  (f : IndicatorNuclearNormUnitBall) : NuclearNorm :=
  mkNuclearNorm
    (conj_exponent (inn_outer_exp f))
    (conj_exponent (inn_singular_vector_exp f)).

(** [IndicatorNuclearNormUnitBall.proximal]: by duality, from the proximal
    factory of the convex conjugate. *)
Definition IndicatorNuclearNormUnitBall_proximal
  (f : IndicatorNuclearNormUnitBall) : Result ProximalFactory :=
  p <- NuclearNorm_proximal (IndicatorNuclearNormUnitBall_convex_conj f) ;;
  Ok (proximal_convex_conj p).

(** ** The sum constraint *)

(** [IndicatorSumConstraint(space, sum_value, sum_rtol)]. *)
Record IndicatorSumConstraint : Type := mkIndicatorSumConstraint {
  isc_domain : TensorSpace;
  sum_value : fl;
  isc_sum_rtol : fl
}.

(** [IndicatorSumConstraint.__init__]. *)
Definition IndicatorSumConstraint_init (space : TensorSpace)
  (sum_value : fl) (sum_rtol : option fl) : IndicatorSumConstraint :=
  let sum_rtol :=
    match sum_rtol with
    | Some t => t
    | None =>
        if dtype_eqb (dtype_of space) float64
        then fmul (Fin 1e-10) (Fin (INR (size space)))
        else fmul (Fin 1e-6) (Fin (INR (size space)))
    end in
  mkIndicatorSumConstraint space sum_value sum_rtol.

(** [IndicatorSumConstraint._call]. *)
Definition IndicatorSumConstraint_call (f : IndicatorSumConstraint)
  (x : element) : fl :=
  if fleb (fabs (fsub (fdiv (fsum x) (sum_value f)) (Fin 1)))
          (isc_sum_rtol f)
  then Fin 0 else PInf.

(** ** The box indicator *)

(** [IndicatorBox._call], for the projection [proj] onto the box that the
    proximal factory returns; [x.dist(y)] is the norm of the difference. *)
Definition dist (x y : element) : fl := norm (vzip fsub x y).

Definition IndicatorBox_call (proj : element -> element) (x : element) : fl :=
  if fgtb (dist x (proj x)) (Fin 0) then PInf else Fin 0.

(** Modelled from the spec: the Euclidean projection onto the box, which
    the operators of [proximal_box_constraint(space, lower, upper)]
    compute for every step size: each component is raised to the lower
    bound and lowered to the upper bound, and a bound [None] is absent. *)
Definition proximal_box_constraint (lower upper : option fl) (sigma : fl)
  (x : element) : element :=
  map (fun a =>
         let a := match lower with Some l => fmax a l | None => a end in
         match upper with Some u => fmin a u | None => a end)
      x.

(** [IndicatorBox(space, lower, upper)] with scalar bounds, its proximal
    factory and its evaluation, which projects with the step size 1. *)
Record IndicatorBox : Type := mkIndicatorBox {
  ib_domain : TensorSpace;
  lower : option fl;
  upper : option fl
}.

Definition IndicatorBox_proximal (f : IndicatorBox) (sigma : fl)
  : element -> element :=
  proximal_box_constraint (lower f) (upper f) sigma.

Definition IndicatorBox_eval (f : IndicatorBox) (x : element) : fl :=
  IndicatorBox_call (IndicatorBox_proximal f (Fin 1)) x.

(** [IndicatorNonnegativity(space)]. *)
Definition IndicatorNonnegativity (space : TensorSpace) : IndicatorBox :=
  mkIndicatorBox space (Some (Fin 0)) None.

(** ** Gradients of the conjugate Kullback-Leibler functionals *)



(** ** The gradient of the Huber functional *)

Section HuberGradient.

Variable np_power : fl -> fl -> fl.



End HuberGradient.


(** ** Separable sums

    The summands are functionals of any kind: what the sum uses of them is
    their evaluation, their convex conjugate and their linearity flag. *)

Section SeparableSum.

Variable F : Type.
Variable F_call : F -> element -> Result fl.
Variable F_convex_conj : F -> F.
Variable F_is_linear : F -> bool.

(** A positional argument of the constructor: a functional, an integer, or
    anything else. *)
Inductive argument : Type :=
| Func (f : F)
| Integral (n : Z)
| Other.

Definition is_Func (a : argument) : bool :=
  match a with Func _ => true | _ => false end.

Fixpoint the_functionals (args : list argument) : list F :=
  match args with
  | [] => []
  | Func f :: t => f :: the_functionals t
  | _ :: t => the_functionals t
  end.

(** [SeparableSum]: the attributes set by the constructor. *)
Record SeparableSum : Type := mkSeparableSum {
  ss_is_linear : bool;
  functionals : list F
}.

(** [SeparableSum.__init__].  Modelled from the spec: the product space of
    the domains, which the space collaborator refuses to build from no
    space at all. *)
Definition SeparableSum_init (args : list argument) : Result SeparableSum :=
  let functionals :=
    match args with
    | [a; Integral n] => repeat a (Z.to_nat n)
    | _ => args
    end in
  if negb (forallb is_Func functionals) then Err TypeError
  else
    match the_functionals functionals with
    | [] => Err ValueError
    | fs => Ok (mkSeparableSum (forallb F_is_linear fs) fs)
    end.

(** One step of Python's [sum]: the next summand is evaluated and added
    to the running total, unless something has raised. *)
Definition SeparableSum_step (acc : Result fl) (p : element * F)
  : Result fl :=
  a <- acc ;; v <- F_call (snd p) (fst p) ;; Ok (fadd a v).

(** [SeparableSum._call]: Python's [sum] adds from the left, starting from
    0; the first summand that raises ends the evaluation. *)
Definition SeparableSum_call (s : SeparableSum) (x : list element)
  : Result fl :=
  fold_left SeparableSum_step (combine x (functionals s)) (Ok (Fin 0)).

(** [SeparableSum.convex_conj]. *)
Definition SeparableSum_convex_conj (s : SeparableSum)
  : Result SeparableSum :=
  let convex_conjs := map F_convex_conj (functionals s) in
  SeparableSum_init (map Func convex_conjs).

End SeparableSum.

Arguments Func {F} f.
Arguments Integral {F} n.
Arguments Other {F}.
Arguments is_Func {F} a.
Arguments the_functionals {F} args.
Arguments ss_is_linear {F} s.
Arguments functionals {F} s.
Arguments mkSeparableSum {F} ss_is_linear functionals.
Arguments SeparableSum_init {F} F_is_linear args.
Arguments SeparableSum_step {F} F_call acc p.
Arguments SeparableSum_call {F} F_call s x.
Arguments SeparableSum_convex_conj {F} F_convex_conj F_is_linear s.

(** ** Sums of real numbers

    What the functionals compute on elements with finite components is
    stated with these sums. *)

Definition Rsum (l : list R) : R := fold_right Rplus 0 l.

Definition Rdot (a b : list R) : R :=
  Rsum (map (fun p => fst p * snd p) (combine a b)).

(** An element with finite components. *)
Definition finite (l : list R) : element := map Fin l.


(** * Properties *)

(** ** Facts about the numeric model *)

(** Decide the comparisons of real numbers a goal or a hypothesis branches
    on. *)
Ltac rclose := try lra; try discriminate.

Ltac rdec :=
  unfold Rltb, Rleb, Reqb, inf_signed in *;
  repeat match goal with
    | |- context [Rlt_dec ?a ?b] => destruct (Rlt_dec a b); rclose
    | |- context [Rle_dec ?a ?b] => destruct (Rle_dec a b); rclose
    | |- context [Req_dec_T ?a ?b] => destruct (Req_dec_T a b); rclose
    | H : context [Rlt_dec ?a ?b] |- _ => destruct (Rlt_dec a b); rclose
    | H : context [Rle_dec ?a ?b] |- _ => destruct (Rle_dec a b); rclose
    | H : context [Req_dec_T ?a ?b] |- _ => destruct (Req_dec_T a b); rclose
    end.

Module FloatFacts.

Lemma Rltb_true (a b : R) : a < b -> Rltb a b = true.
Proof. intros; rdec; reflexivity. Qed.

Lemma Rltb_false (a b : R) : ~ a < b -> Rltb a b = false.
Proof. intros; rdec; reflexivity. Qed.

Lemma Reqb_true (a b : R) : a = b -> Reqb a b = true.
Proof. intros; rdec; reflexivity. Qed.

Lemma Reqb_false (a b : R) : a <> b -> Reqb a b = false.
Proof. intros; rdec; reflexivity. Qed.

Lemma Reqb_eq (a b : R) : Reqb a b = true <-> a = b.
Proof. unfold Reqb; destruct (Req_dec_T a b); split; congruence. Qed.

Lemma Rleb_le (a b : R) : Rleb a b = true <-> a <= b.
Proof.
  unfold Rleb; destruct (Rle_dec a b); split; intros; congruence || lra.
Qed.


Lemma fdiv_Fin (a b : R) : b <> 0 -> fdiv (Fin a) (Fin b) = Fin (a / b).
Proof. intros; cbn; rdec; reflexivity. Qed.

Lemma fmul_one_r (a : fl) : fmul a (Fin 1) = a.
Proof. destruct a; cbn; rdec; try reflexivity. f_equal; lra. Qed.

Lemma fmul_one_l (a : fl) : fmul (Fin 1) a = a.
Proof. destruct a; cbn; rdec; try reflexivity. f_equal; lra. Qed.

Lemma fopp_involutive (a : fl) : fopp (fopp a) = a.
Proof. destruct a; cbn; try reflexivity. f_equal; lra. Qed.

Lemma isfinite_fopp (a : fl) : isfinite (fopp a) = isfinite a.
Proof. destruct a; reflexivity. Qed.

Lemma isfinite_fadd (a b : fl) :
  isfinite (fadd a b) = isfinite a && isfinite b.
Proof. destruct a, b; reflexivity. Qed.

Lemma isfinite_Fin (a : fl) : isfinite a = true -> exists r, a = Fin r.
Proof. destruct a; try discriminate. intros _. eexists; reflexivity. Qed.

(** A sum is finite exactly when all its terms are. *)
Lemma isfinite_fsum (l : element) :
  isfinite (fsum l) = forallb isfinite l.
Proof.
  induction l as [|a l IH]; [reflexivity|].
  cbn [fsum fold_right forallb]. rewrite isfinite_fadd. f_equal. exact IH.
Qed.

Lemma forallb_isfinite_false (l : element) :
  Exists (fun a => isfinite a = false) l -> forallb isfinite l = false.
Proof.
  induction 1 as [a l Ha|a l _ IH]; cbn.
  - rewrite Ha. reflexivity.
  - rewrite IH. apply andb_false_r.
Qed.

(** The special values behave as IEEE-754 prescribes. *)
Example fadd_special :
  fadd PInf NInf = NaN /\ fadd (Fin 1) NInf = NInf /\
  fadd NInf NInf = NInf /\ fadd PInf (Fin 1) = PInf /\ fadd NaN PInf = NaN.
Proof. repeat split. Qed.

Example fmul_special :
  fmul (Fin 0) PInf = NaN /\ fmul (Fin (-2)) PInf = NInf /\
  fmul NInf NInf = PInf /\ fmul NInf (Fin 2) = NInf /\ fmul PInf NaN = NaN.
Proof. cbn. rdec. repeat split. Qed.

Example fdiv_special :
  fdiv (Fin 1) (Fin 0) = PInf /\ fdiv (Fin (-1)) (Fin 0) = NInf /\
  fdiv (Fin 0) (Fin 0) = NaN /\ fdiv PInf NInf = NaN /\
  fdiv (Fin 1) PInf = Fin 0 /\ fdiv NInf (Fin (-1)) = PInf.
Proof. cbn. rdec. repeat split. Qed.

Example comparison_special :
  fleb NaN NaN = false /\ feqb NaN NaN = false /\ fltb NInf PInf = true /\
  fleb PInf PInf = true /\ fltb (Fin 0) NInf = false /\
  fleb (Fin 0) PInf = true.
Proof. repeat split. Qed.

Example flog_special :
  flog (Fin 0) = NInf /\ flog (Fin (-1)) = NaN /\ flog (Fin 1) = Fin 0 /\
  fexp NInf = Fin 0 /\ fsqrt (Fin (-1)) = NaN.
Proof. cbn. rdec. rewrite ln_1. repeat split. Qed.

Example xlogy_special :
  xlogy (Fin 0) (Fin 0) = Fin 0 /\ xlogy (Fin 0) (Fin (-1)) = Fin 0 /\
  xlogy (Fin 0) NaN = NaN /\ xlogy (Fin 1) (Fin 0) = NInf.
Proof. unfold xlogy. cbn. rdec. cbn. rdec. repeat split. Qed.

End FloatFacts.
Import FloatFacts.



(** ** Elements *)

Lemma vzip_cons (f : fl -> fl -> fl) (a b : fl) (x y : element) :
  vzip f (a :: x) (b :: y) = f a b :: vzip f x y.
Proof. reflexivity. Qed.

Lemma vzip_repeat_r (f : fl -> fl -> fl) (c : fl) (x : element) :
  vzip f x (repeat c (length x)) = map (fun a => f a c) x.
Proof.
  induction x as [|a x IH]; [reflexivity|].
  cbn [length repeat map]. rewrite vzip_cons, IH. reflexivity.
Qed.

Lemma vzip_one (f : fl -> fl -> fl) (sp : TensorSpace) (x : element) :
  in_space sp x -> vzip f x (one sp) = map (fun a => f a (Fin 1)) x.
Proof.
  unfold in_space, one. intros <-. apply vzip_repeat_r.
Qed.

(** ** Huber with vanishing smoothing *)

Section HuberFacts.

Variable np_power : fl -> fl -> fl.

Lemma Huber_call_gamma_0 (domain : Domain) (x : Elem domain) :
  Huber_call np_power domain (Fin 0) x =
  inner (Huber_norm np_power domain x) (one (norm_space domain)).
Proof.
  unfold Huber_call. cbn. rdec. reflexivity.
Qed.

(** C6: for every input [x], [Huber(space, gamma=0)] evaluates to exactly
    the value of [L1Norm(space)] when the domain is a tensor space, and to
    the value of [GroupL1Norm(space, 2)], which the constructor accepts,
    when the domain is a product space. *)
Theorem Huber_gamma_0_is_L1Norm :
  (forall (sp : TensorSpace) (x : element),
      call np_power (L1Norm sp) x =
      Ok (Huber_call np_power (Tensor sp) (Fin 0) x)) /\
  (forall (base : TensorSpace) (m : nat) (x : list element),
      exists f,
        GroupL1Norm_init (Product base m) (Some (Fin 2)) = Ok f /\
        GroupL1Norm_call np_power f x =
        Huber_call np_power (Product base m) (Fin 0) x).
Proof.
  split.
  - intros sp x. rewrite Huber_call_gamma_0.
    cbn. unfold LpNorm_call. cbn. rdec. reflexivity.
  - intros base m x. exists (mkGroupL1Norm base m (Fin 2)).
    split; [cbn; rdec; reflexivity|].
    rewrite Huber_call_gamma_0. reflexivity.
Qed.

End HuberFacts.

(** ** The simplex indicator *)

Lemma forallb_Forall_true {A : Type} (p : A -> bool) (l : list A) :
  forallb p l = true <-> Forall (fun a => p a = true) l.
Proof.
  rewrite forallb_forall, Forall_forall. reflexivity.
Qed.

Lemma indicator_zero_iff (b : bool) :
  (if b then Fin 0 else PInf) = Fin 0 <-> b = true.
Proof. destruct b; split; intros; congruence. Qed.

Lemma indicator_inf_iff (b : bool) :
  (if b then Fin 0 else PInf) = PInf <-> ~ b = true.
Proof. destruct b; split; intros; congruence. Qed.

(** C7: [IndicatorSimplex(space, diameter, sum_rtol)] evaluates to 0 if
    and only if every component of [x] is at least 0 (compared exactly) and
    [|sum x / diameter - 1| <= sum_rtol]; otherwise it evaluates to +inf.
    The tolerance defaults to [1e-10 * size] on a float64 space and to
    [1e-6 * size] on any other. *)
Theorem IndicatorSimplex_call_spec :
  forall (sp : TensorSpace) (d : fl) (rtol : option fl) (x : element),
    let f := IndicatorSimplex_init sp d rtol in
    let feasible :=
      Forall (fun a => fleb (Fin 0) a = true) x /\
      fleb (fabs (fsub (fdiv (fsum x) d) (Fin 1))) (sum_rtol f) = true in
    (IndicatorSimplex_call f x = Fin 0 <-> feasible) /\
    (IndicatorSimplex_call f x = PInf <-> ~ feasible) /\
    sum_rtol f =
      match rtol, dtype_of sp with
      | Some t, _ => t
      | None, float64 => Fin (1e-10 * INR (size sp))
      | None, _ => Fin (1e-6 * INR (size sp))
      end.
Proof.
  intros sp d rtol x f feasible.
  assert (Hb : (fleb (fabs (fsub (fdiv (fsum x) d) (Fin 1))) (sum_rtol f)
                && forallb (fun a => fgeb a (Fin 0)) x = true) <-> feasible).
  { unfold feasible. rewrite andb_true_iff, forallb_Forall_true.
    unfold fgeb. tauto. }
  split; [|split].
  - rewrite <- Hb. apply indicator_zero_iff.
  - rewrite <- Hb. apply indicator_inf_iff.
  - subst f. destruct rtol, (dtype_of sp) eqn:E; cbn; rewrite ?E; reflexivity.
Qed.

(** ** The zero indicator *)




(** ** Quadratic forms *)

Section QuadraticFacts.

Context {Op : Type} `{Operator Op}.


End QuadraticFacts.


(** ** The Kullback-Leibler family *)

(** The guard shared by the three checked functionals: a result that is not
    finite is replaced by +inf. *)
Lemma isfinite_guard (res : fl) :
  let r := if negb (isfinite res) then PInf else res in
  (r = PInf \/ isfinite r = true) /\ isnan r = false.
Proof. destruct res; cbn; auto. Qed.

(** C3 (amended): for every prior and every input [x], the evaluation of
    [KullbackLeibler], [KullbackLeiblerConvexConj] and
    [KullbackLeiblerCrossEntropy] returns a finite value or +inf and never
    NaN. *)
Theorem KL_call_finite_or_inf :
  forall (sp : TensorSpace) (prior : option element) (x : element),
    let checked (r : fl) :=
      (r = PInf \/ isfinite r = true) /\ isnan r = false in
    checked (KullbackLeibler_call sp prior x) /\
    checked (KullbackLeiblerConvexConj_call sp prior x) /\
    checked (KullbackLeiblerCrossEntropy_call sp prior x).
Proof.
  intros sp prior x checked. subst checked. cbv beta.
  unfold KullbackLeibler_call, KullbackLeiblerConvexConj_call,
    KullbackLeiblerCrossEntropy_call.
  repeat split; try apply isfinite_guard.
Qed.

(** C3, counterexample: with a zero prior and the input +inf the fourth
    functional, [KullbackLeiblerCrossEntropyConvexConj], returns NaN. *)
Lemma KLCrossEntropyConvexConj_returns_nan :
  KullbackLeiblerCrossEntropyConvexConj_call (rn 1) (Some [Fin 0]) [PInf]
  = NaN.
Proof. cbn. rdec. reflexivity. Qed.

(** Out of the domain the three functionals return +inf: the logarithm of
    0 is -inf, that of a negative number NaN. *)
Example KL_call_out_of_domain :
  KullbackLeibler_call (rn 1) None [Fin 0] = PInf /\
  KullbackLeiblerConvexConj_call (rn 1) None [Fin 2] = PInf /\
  KullbackLeiblerCrossEntropy_call (rn 1) None [Fin (-1)] = PInf.
Proof.
  unfold KullbackLeibler_call, KullbackLeiblerConvexConj_call,
    KullbackLeiblerCrossEntropy_call, inner, xlogy.
  repeat (cbn; rdec). repeat split.
Qed.

(** *** The convex conjugate of the Kullback-Leibler functional *)

Lemma inner_one (sp : TensorSpace) (v : element) :
  in_space sp v -> inner v (one sp) = fsum v.
Proof.
  intros Hv. unfold inner. rewrite (vzip_one _ _ _ Hv). f_equal.
  rewrite <- (map_id v) at 2. apply map_ext. intros a. apply fmul_one_r.
Qed.

Lemma vzip_length (f : fl -> fl -> fl) (x y : element) :
  length x = length y -> length (vzip f x y) = length x.
Proof.
  intros Hl. unfold vzip. rewrite length_map, length_combine, <- Hl.
  apply Nat.min_id.
Qed.

(** One term [xlogy(g_i, 1 - x_i)] at finite arguments with [x_i < 1], or
    with [x_i = 1] where the prior vanishes ([0 * log 0] is [0]). *)
Lemma xlogy_term_finite (g x : R) :
  x < 1 \/ (x = 1 /\ g = 0) ->
  xlogy (Fin g) (fsub (Fin 1) (Fin x)) = Fin (g * ln (1 - x)).
Proof.
  intros Hx. unfold xlogy. cbn. rdec; cbn; try reflexivity;
    f_equal; subst g; lra.
Qed.

(** One term is not finite when [g_i > 0] and [x_i >= 1]. *)
Lemma xlogy_term_not_finite (g x : fl) :
  fltb (Fin 0) g = true -> fleb (Fin 1) x = true ->
  isfinite (xlogy g (fsub (Fin 1) x)) = false.
Proof.
  intros Hg Hx. unfold xlogy.
  destruct g as [g| | |], x as [x| | |]; cbn in *; try discriminate;
    rdec; try discriminate; reflexivity.
Qed.

Lemma KLCC_terms_finite (g x : list R) :
  length g = length x ->
  Forall (fun p => snd p < 1 \/ (snd p = 1 /\ fst p = 0)) (combine g x) ->
  exists s,
    fsum (vzip xlogy (map Fin g) (map (fsub (Fin 1)) (map Fin x))) = Fin s /\
    - s = KLCC_sum g x.
Proof.
  revert x. induction g as [|gi g IH]; intros [|xi x] Hl Hx;
    try discriminate.
  - exists 0. split; [reflexivity|cbn; lra].
  - cbn [combine] in Hx. inversion Hx as [|? ? Hxi Hx']; subst.
    destruct (IH x) as [s [Hs Es]]; [cbn in Hl; lia|assumption|].
    exists (gi * ln (1 - xi) + s). split.
    + cbn [map]. rewrite vzip_cons. cbn [fsum fold_right].
      fold (fsum (vzip xlogy (map Fin g) (map (fsub (Fin 1)) (map Fin x)))).
      rewrite Hs, xlogy_term_finite by assumption. reflexivity.
    + cbn [KLCC_sum]. rewrite <- Es. ring.
Qed.

Lemma KLCC_terms_not_finite (g x : element) :
  Exists (fun p => fltb (Fin 0) (fst p) = true /\ fleb (Fin 1) (snd p) = true)
         (combine g x) ->
  Exists (fun a => isfinite a = false)
         (vzip xlogy g (map (fsub (Fin 1)) x)).
Proof.
  revert x. induction g as [|gi g IH]; intros [|xi x] Hex;
    try (inversion Hex; fail).
  cbn [map]. rewrite vzip_cons. cbn [combine] in Hex.
  inversion Hex as [? ? [Hg Hx]|? ? Hex']; subst.
  - left. apply xlogy_term_not_finite; assumption.
  - right. apply IH. assumption.
Qed.

Lemma xlogy_one_l (y : element) :
  vzip xlogy (repeat (Fin 1) (length y)) y = map flog y.
Proof.
  induction y as [|a y IH]; [reflexivity|].
  cbn [length repeat map]. rewrite vzip_cons, IH. f_equal.
  unfold xlogy.
  replace (feqb (Fin 1) (Fin 0)) with false by (cbn; rdec; reflexivity).
  apply fmul_one_l.
Qed.

(** With the prior [None] the functional is the one with the one-element as
    prior. *)
Lemma KLCC_prior_None (sp : TensorSpace) (x : element) :
  in_space sp x ->
  KullbackLeiblerConvexConj_call sp None x =
  KullbackLeiblerConvexConj_call sp (Some (one sp)) x.
Proof.
  intros Hx. unfold KullbackLeiblerConvexConj_call, one.
  replace (size sp) with (length (map (fsub (Fin 1)) x))
    by (rewrite length_map; exact Hx).
  rewrite xlogy_one_l. reflexivity.
Qed.

(** C4 (amended): for a prior [g] and an input [x] of the domain,
    [KullbackLeiblerConvexConj(g)] evaluates to the sum of
    [- g_i * log (1 - x_i)] when all components are finite and every [i]
    has [x_i < 1], or [x_i = 1] with [g_i = 0] (a term [0 * log 0] counts
    as 0); it evaluates to +inf whenever some component has [x_i >= 1] and
    [g_i > 0]; the prior [None] stands for the one-element. *)
Theorem KullbackLeiblerConvexConj_call_spec :
  forall (sp : TensorSpace),
    (forall g x : list R,
        length g = size sp -> length x = size sp ->
        Forall (fun p => snd p < 1 \/ (snd p = 1 /\ fst p = 0))
               (combine g x) ->
        KullbackLeiblerConvexConj_call sp (Some (map Fin g)) (map Fin x)
        = Fin (KLCC_sum g x)) /\
    (forall g x : element,
        in_space sp g -> in_space sp x ->
        Exists (fun p => fltb (Fin 0) (fst p) = true /\
                         fleb (Fin 1) (snd p) = true) (combine g x) ->
        KullbackLeiblerConvexConj_call sp (Some g) x = PInf) /\
    (forall x : element,
        in_space sp x ->
        KullbackLeiblerConvexConj_call sp None x =
        KullbackLeiblerConvexConj_call sp (Some (one sp)) x).
Proof.
  intros sp. split; [|split; [|apply KLCC_prior_None]].
  - intros g x Hg Hx Hlt. unfold KullbackLeiblerConvexConj_call.
    rewrite inner_one.
    + destruct (KLCC_terms_finite g x) as [s [Hs Es]];
        [congruence|assumption|].
      rewrite Hs. cbn. rewrite Es. reflexivity.
    + unfold in_space. rewrite vzip_length; rewrite !length_map; congruence.
  - intros g x Hg Hx Hex. unfold KullbackLeiblerConvexConj_call.
    rewrite inner_one.
    + assert (Hnf : isfinite
                      (fopp (fsum (vzip xlogy g (map (fsub (Fin 1)) x))))
                    = false).
      { rewrite isfinite_fopp, isfinite_fsum.
        apply forallb_isfinite_false, KLCC_terms_not_finite, Hex. }
      rewrite Hnf. reflexivity.
    + unfold in_space in *.
      rewrite vzip_length; rewrite ?length_map; congruence.
Qed.

(** C4, counterexample: where the prior vanishes, a component [x_i = 1]
    contributes [0 * log 0 = 0] and the value is finite, not +inf. *)
Lemma KullbackLeiblerConvexConj_zero_prior_finite :
  fleb (Fin 0) (Fin 0) = true /\ fleb (Fin 1) (Fin 1) = true /\
  KullbackLeiblerConvexConj_call (rn 1) (Some [Fin 0]) [Fin 1] = Fin 0.
Proof.
  unfold KullbackLeiblerConvexConj_call, inner, xlogy.
  repeat (cbn; rdec). repeat split. f_equal. lra.
Qed.

Lemma KullbackLeiblerConvexConj_call_spec_witness :
  KullbackLeiblerConvexConj_call (rn 2) (Some (map Fin [2; 0]))
    (map Fin [1/2; 1])
  = Fin (KLCC_sum [2; 0] [1/2; 1]) /\
  KullbackLeiblerConvexConj_call (rn 2) (Some [Fin 3; Fin 0]) [Fin 1; Fin 0]
  = PInf.
Proof.
  destruct (KullbackLeiblerConvexConj_call_spec (rn 2)) as [Hfin [Hinf _]].
  split.
  - apply Hfin; [reflexivity|reflexivity|].
    repeat constructor; cbn; lra.
  - apply Hinf; [reflexivity|reflexivity|].
    left. cbn. rdec.
Defined.

(** *** Gradients of the Kullback-Leibler functionals *)

Lemma Rdiv_nonpos (x g : R) : x <= 0 -> 0 < g -> x / g <= 0.
Proof.
  intros Hx Hg. unfold Rdiv.
  assert (0 < / g) by (apply Rinv_0_lt_compat; assumption).
  nra.
Qed.

(** The logarithm in the cross-entropy gradient is not finite at a
    non-positive component, for a nonnegative prior component. *)
Lemma flog_quotient_not_finite (x g : fl) :
  fleb x (Fin 0) = true -> fleb (Fin 0) g = true ->
  isfinite (flog (fdiv x g)) = false.
Proof.
  intros Hx Hg.
  destruct x as [x| | |], g as [g| | |]; cbn in *; try discriminate;
    try reflexivity.
  - apply Rleb_le in Hx, Hg.
    destruct (Req_dec_T g 0) as [->|Hg0].
    + unfold inf_signed. rdec; reflexivity.
    + assert (x / g <= 0) by (apply Rdiv_nonpos; lra).
      cbn. rdec; reflexivity.
  - rdec; reflexivity.
  - rdec; reflexivity.
Qed.

Lemma flog_not_finite (x : fl) :
  fleb x (Fin 0) = true -> isfinite (flog x) = false.
Proof.
  intros Hx. destruct x as [x| | |]; cbn in *; try discriminate;
    rdec; try discriminate; reflexivity.
Qed.

(** [(-g) / x + 1] is [1 - g / x], also where the quotient is not finite. *)
Lemma KLGradient_term (g x : fl) :
  fadd (fdiv (fopp g) x) (Fin 1) = fsub (Fin 1) (fdiv g x).
Proof.
  unfold fsub.
  destruct g as [g| | |], x as [x| | |]; cbn; rdec; cbn;
    try reflexivity; f_equal; lra.
Qed.

Lemma KLGradient_call_Some (g x : element) :
  KLGradient_call (Some g) x =
  vzip (fun gi xi => fsub (Fin 1) (fdiv gi xi)) g x.
Proof.
  unfold KLGradient_call. revert x.
  induction g as [|gi g IH]; intros [|xi x]; try reflexivity.
  cbn [map]. rewrite !vzip_cons. cbn [map]. rewrite IH.
  f_equal. apply KLGradient_term.
Qed.

Lemma KLGradient_call_None (x : element) :
  KLGradient_call None x =
  map (fun xi => fsub (Fin 1) (fdiv (Fin 1) xi)) x.
Proof.
  unfold KLGradient_call. apply map_ext. intros a.
  apply (KLGradient_term (Fin 1) a).
Qed.

Lemma KLCrossEntropy_log_not_finite (g x : element) :
  length g = length x ->
  Forall (fun gi => fleb (Fin 0) gi = true) g ->
  Exists (fun xi => fleb xi (Fin 0) = true) x ->
  Exists (fun a => isfinite a = false) (map flog (vzip fdiv x g)).
Proof.
  revert g. induction x as [|xi x IH]; intros [|gi g] Hl Hg Hex;
    try discriminate; try (inversion Hex; fail).
  inversion Hg as [|? ? Hgi Hg']; subst.
  rewrite vzip_cons. cbn [map].
  inversion Hex as [? ? Hxi|? ? Hex']; subst.
  - left. apply flog_quotient_not_finite; assumption.
  - right. apply IH; [cbn in Hl; lia|assumption|assumption].
Qed.

(** C5: for a prior that is [None] or a nonnegative element of the domain,
    at a point [x] with at least one non-positive component the gradient
    operator of [KullbackLeiblerCrossEntropy] raises an error, and whenever
    it returns, all components of its value are finite; the gradient
    operator of [KullbackLeibler] returns at the same point the value
    [1 - g / x], finite or not, without raising. *)
Theorem KL_gradients_at_nonpositive :
  forall (prior : option element) (x : element),
    prior_ok prior x ->
    Exists (fun xi => fleb xi (Fin 0) = true) x ->
    KLCrossEntropyGradient_call prior x = Err ValueError /\
    (forall y v, KLCrossEntropyGradient_call prior y = Ok v ->
                 Forall (fun a => isfinite a = true) v) /\
    KLGradient_call prior x =
      match prior with
      | None => map (fun xi => fsub (Fin 1) (fdiv (Fin 1) xi)) x
      | Some g => vzip (fun gi xi => fsub (Fin 1) (fdiv gi xi)) g x
      end.
Proof.
  intros prior x Hp Hex. split; [|split].
  - unfold KLCrossEntropyGradient_call.
    rewrite forallb_isfinite_false; [reflexivity|].
    destruct prior as [g|].
    + destruct Hp as [Hl Hg]. apply KLCrossEntropy_log_not_finite; assumption.
    + clear Hp. induction Hex as [xi x Hxi|xi x _ IH]; cbn [map].
      * left. apply flog_not_finite, Hxi.
      * right. exact IH.
  - intros y v. unfold KLCrossEntropyGradient_call.
    match goal with
    | |- context [forallb isfinite ?t] =>
        destruct (forallb isfinite t) eqn:E; [|discriminate]
    end.
    intros Hv. inversion Hv; subst. apply forallb_Forall_true, E.
  - destruct prior as [g|].
    + apply KLGradient_call_Some.
    + apply KLGradient_call_None.
Qed.

Lemma KL_gradients_at_nonpositive_witness :
  prior_ok (Some [Fin 1; Fin 2]) [Fin 3; Fin 0] /\
  Exists (fun xi => fleb xi (Fin 0) = true) [Fin 3; Fin 0] /\
  KLCrossEntropyGradient_call (Some [Fin 1; Fin 2]) [Fin 3; Fin 0]
  = Err ValueError /\
  KLGradient_call (Some [Fin 1; Fin 2]) [Fin 3; Fin 0]
  = vzip (fun gi xi => fsub (Fin 1) (fdiv gi xi))
         [Fin 1; Fin 2] [Fin 3; Fin 0].
Proof.
  assert (Hp : prior_ok (Some [Fin 1; Fin 2]) [Fin 3; Fin 0]).
  { split; [reflexivity|]. repeat constructor; cbn; rdec. }
  assert (Hex : Exists (fun xi => fleb xi (Fin 0) = true) [Fin 3; Fin 0]).
  { right. left. cbn. rdec. }
  destruct (KL_gradients_at_nonpositive _ _ Hp Hex) as [Hraise [_ Hkl]].
  split; [exact Hp|]. split; [exact Hex|]. split; assumption.
Defined.

(** At [x = [3, 0]] with the prior [[1, 2]] the gradient of
    [KullbackLeibler] is [[2/3, -inf]]. *)
Example KLGradient_call_at_zero :
  KLGradient_call (Some [Fin 1; Fin 2]) [Fin 3; Fin 0]
  = [Fin (2 / 3); NInf].
Proof.
  rewrite KLGradient_call_Some. cbn -[fdiv].
  rewrite fdiv_Fin by lra. cbn. rdec. cbn.
  do 2 f_equal. lra.
Qed.

(** ** The gradient of the L2-norm *)

Lemma inner_zero (n : nat) :
  inner (repeat (Fin 0) n) (repeat (Fin 0) n) = Fin 0.
Proof.
  unfold inner. induction n as [|n IH]; [reflexivity|].
  cbn [repeat]. rewrite vzip_cons. cbn [fsum fold_right].
  fold (fsum (vzip fmul (repeat (Fin 0) n) (repeat (Fin 0) n))).
  rewrite IH. cbn. f_equal. lra.
Qed.

Lemma norm_zero (sp : TensorSpace) : norm (zero sp) = Fin 0.
Proof.
  unfold norm, zero. rewrite inner_zero. cbn. rdec.
  f_equal. apply sqrt_0.
Qed.

(** The self inner product is a nonnegative real number or is not finite,
    and in exact arithmetic it vanishes at the zero element only. *)
Lemma inner_self (x : element) :
  (exists s, inner x x = Fin s /\ 0 <= s /\
             (s = 0 -> x = repeat (Fin 0) (length x))) \/
  isfinite (inner x x) = false.
Proof.
  unfold inner. induction x as [|a x IH].
  - left. exists 0. split; [reflexivity|]. split; [lra|reflexivity].
  - rewrite vzip_cons. cbn [fsum fold_right].
    fold (fsum (vzip fmul x x)).
    destruct IH as [[s [Hs [Hpos Hz]]]|Hnf].
    + rewrite Hs. destruct a as [r| | |]; try (right; reflexivity).
      left. exists (r * r + s). split; [reflexivity|].
      split; [nra|]. intros H0.
      assert (r = 0) by nra. assert (s = 0) by nra.
      subst r. cbn [length repeat]. f_equal. apply Hz. assumption.
    + right. rewrite isfinite_fadd, Hnf. apply andb_false_r.
Qed.

Lemma norm_eq_zero (x : element) :
  feqb (norm x) (Fin 0) = true -> x = repeat (Fin 0) (length x).
Proof.
  unfold norm. destruct (inner_self x) as [[s [Hs [Hpos Hz]]]|Hnf].
  - rewrite Hs. cbn. rdec. cbn. intros E%Reqb_eq. apply Hz.
    apply sqrt_eq_0; assumption.
  - destruct (inner x x); try discriminate; cbn; discriminate.
Qed.

(** C8: the gradient operator of [LpNorm] with exponent 2 returns the zero
    element of the domain at [x = 0], where the norm vanishes, and
    [x / norm x] at every [x] whose norm is not zero; no division it
    evaluates has the divisor zero. *)
Theorem L2Gradient_call_spec :
  forall (sp : TensorSpace) (x : element),
    LpNorm_gradient sp (Fin 2) = Ok (L2Gradient_call sp) /\
    norm (zero sp) = Fin 0 /\
    value (L2Gradient_call sp (zero sp)) = zero sp /\
    (feqb (norm x) (Fin 0) = true ->
     value (L2Gradient_call sp x) = zero sp) /\
    (feqb (norm x) (Fin 0) = false ->
     value (L2Gradient_call sp x) = map (fun a => fdiv a (norm x)) x) /\
    Forall (fun d => feqb d (Fin 0) = false) (divisors (L2Gradient_call sp x)).
Proof.
  intros sp x.
  split; [unfold LpNorm_gradient; cbn; rdec; reflexivity|].
  split; [apply norm_zero|].
  unfold L2Gradient_call.
  split; [|split; [|split]].
  - rewrite norm_zero. cbn. rdec. reflexivity.
  - intros Hn. rewrite Hn. reflexivity.
  - intros Hn. rewrite Hn. reflexivity.
  - destruct (feqb (norm x) (Fin 0)) eqn:Hn; cbn.
    + constructor.
    + constructor; [exact Hn|constructor].
Qed.

Lemma L2Gradient_call_spec_witness :
  value (L2Gradient_call (rn 2) [Fin 3; Fin 4])
  = map (fun a => fdiv a (norm [Fin 3; Fin 4])) [Fin 3; Fin 4] /\
  value (L2Gradient_call (rn 2) (zero (rn 2))) = zero (rn 2).
Proof.
  destruct (L2Gradient_call_spec (rn 2) [Fin 3; Fin 4])
    as [_ [_ [_ [_ [Hnz _]]]]].
  destruct (L2Gradient_call_spec (rn 2) (zero (rn 2)))
    as [_ [_ [_ [Hz _]]]].
  split.
  - apply Hnz. unfold norm, inner. cbn. rdec. cbn.
    assert (E : sqrt (3 * 3 + (4 * 4 + 0)) = 5).
    { apply sqrt_lem_1; lra. }
    rewrite E. apply Reqb_false. lra.
  - apply Hz. rewrite norm_zero. apply Reqb_true. reflexivity.
Defined.

(** ** Conjugate exponents and the Lp-norm *)

(** For a finite exponent other than 1 the conjugate exponent is
    [p / (p - 1)]. *)
Lemma conj_exponent_Fin (r : R) :
  r <> 1 -> conj_exponent (Fin r) = Fin (r / (r - 1)).
Proof.
  intros Hr. unfold conj_exponent. cbn. rdec; reflexivity.
Qed.

Lemma conj_exponent_1 : conj_exponent (Fin 1) = PInf.
Proof. unfold conj_exponent. cbn. rdec. reflexivity. Qed.

Lemma conj_exponent_inf : conj_exponent PInf = Fin 1.
Proof. reflexivity. Qed.

(** The conjugate exponent of the conjugate exponent is the exponent,
    except at [-inf], whose conjugate exponent is NaN. *)
Lemma conj_exponent_involutive (p : fl) :
  p <> NInf -> conj_exponent (conj_exponent p) = p.
Proof.
  intros Hp. destruct p as [r| | |]; try reflexivity; try congruence.
  - destruct (Req_dec_T r 1) as [->|Hr].
    + rewrite conj_exponent_1. reflexivity.
    + rewrite conj_exponent_Fin by assumption.
      assert (Hq : r / (r - 1) <> 1).
      { intros E. apply (f_equal (fun t => t * (r - 1))) in E.
        field_simplify in E; lra. }
      rewrite conj_exponent_Fin by assumption.
      f_equal. field. split; lra.
  - rewrite conj_exponent_inf. apply conj_exponent_1.
Qed.

Lemma conj_exponent_relation (p : fl) :
  p <> Fin 0 -> p <> NInf -> p <> NaN ->
  fadd (fdiv (Fin 1) p) (fdiv (Fin 1) (conj_exponent p)) = Fin 1.
Proof.
  intros H0 Hn Hnan. destruct p as [r| | |]; try congruence.
  - assert (r <> 0) by congruence.
    destruct (Req_dec_T r 1) as [->|Hr].
    + rewrite conj_exponent_1. cbn. rdec. cbn. f_equal. lra.
    + rewrite conj_exponent_Fin by assumption.
      assert (Hq : r / (r - 1) <> 0).
      { intros E. apply (f_equal (fun t => t * (r - 1))) in E.
        field_simplify in E; lra. }
      cbn. rdec. cbn. f_equal. field. split; lra.
  - cbn. rdec. cbn. f_equal. lra.
Qed.

Section LpNormFacts.

Variable np_power : fl -> fl -> fl.

(** The biconjugate of an Lp-norm is the Lp-norm itself, or its subclass
    [L1Norm] or [L2Norm] with the same exponent. *)
Lemma LpNorm_biconj (sp : TensorSpace) (p : fl) :
  p <> NInf ->
  domain_of (convex_conj (convex_conj (LpNorm sp p))) = sp /\
  exponent_of (convex_conj (convex_conj (LpNorm sp p))) = p /\
  (forall q, convex_conj (convex_conj (LpNorm sp p))
             <> IndicatorLpUnitBall sp q).
Proof.
  intros Hp. cbn [convex_conj exponent_of].
  destruct (feqb (conj_exponent p) PInf) eqn:E1;
    [|destruct (feqb (conj_exponent p) (Fin 2)) eqn:E2].
  - assert (p = Fin 1).
    { rewrite <- (conj_exponent_involutive p Hp).
      destruct (conj_exponent p); try discriminate. reflexivity. }
    subst p. repeat split; discriminate.
  - assert (p = Fin 2).
    { rewrite <- (conj_exponent_involutive p Hp).
      destruct (conj_exponent p) as [q| | |]; try discriminate.
      cbn in E2. apply Reqb_eq in E2. subst q.
      rewrite conj_exponent_Fin by lra. f_equal. field. }
    subst p. repeat split; discriminate.
  - cbn. rewrite conj_exponent_involutive by assumption.
    repeat split; discriminate.
Qed.

Lemma call_by_exponent (f : Functional) (x : element) :
  (forall q, f <> IndicatorLpUnitBall (domain_of f) q) ->
  call np_power f x = LpNorm_call np_power (domain_of f) (exponent_of f) x.
Proof.
  destruct f; cbn; try reflexivity.
  intros Hf. exfalso. apply (Hf exponent). reflexivity.
Qed.

(** C2 (amended): [LpNorm(space, p).convex_conj] is the indicator of the
    unit ball of the norm with the conjugate exponent [q]; [q] satisfies
    [1/p + 1/q = 1] for every exponent [p] other than 0, -inf and NaN
    ([q = inf] when [p = 1]); and for every exponent other than -inf,
    applying [convex_conj] twice yields a functional that evaluates
    identically to the original [LpNorm] at every point. *)
Theorem LpNorm_convex_conj_spec :
  forall (sp : TensorSpace) (p : fl),
    convex_conj (LpNorm sp p) = IndicatorLpUnitBall sp (conj_exponent p) /\
    conj_exponent (Fin 1) = PInf /\
    (p <> Fin 0 -> p <> NInf -> p <> NaN ->
     fadd (fdiv (Fin 1) p) (fdiv (Fin 1) (conj_exponent p)) = Fin 1) /\
    (p <> NInf ->
     forall x : element,
       call np_power (convex_conj (convex_conj (LpNorm sp p))) x =
       call np_power (LpNorm sp p) x).
Proof.
  intros sp p. split; [reflexivity|].
  split; [apply conj_exponent_1|].
  split; [apply conj_exponent_relation|].
  intros Hp x.
  destruct (LpNorm_biconj sp p Hp) as [Hd [He Hq]].
  rewrite call_by_exponent.
  - rewrite Hd, He. reflexivity.
  - rewrite Hd. exact Hq.
Qed.

End LpNormFacts.

Lemma LpNorm_convex_conj_spec_witness :
  fadd (fdiv (Fin 1) (Fin 3)) (fdiv (Fin 1) (conj_exponent (Fin 3))) = Fin 1 /\
  call (fun _ _ => NaN) (convex_conj (convex_conj (LpNorm (rn 2) (Fin 3))))
       [Fin 1; Fin 2] =
  call (fun _ _ => NaN) (LpNorm (rn 2) (Fin 3)) [Fin 1; Fin 2].
Proof.
  destruct (LpNorm_convex_conj_spec (fun _ _ => NaN) (rn 2) (Fin 3))
    as [_ [_ [Hrel Hrt]]].
  split.
  - apply Hrel; try discriminate. intros E. injection E. lra.
  - apply Hrt. discriminate.
Defined.

(** C2, counterexample: at the exponent 0 no exponent [q] satisfies
    [1/p + 1/q = 1], since [1/0] is infinite; and at the exponent -inf the
    conjugate exponent is NaN, so that no power function makes the
    biconjugate, which raises [RuntimeError], agree with the norm, which is
    the least absolute value. *)
Lemma LpNorm_conj_exponent_counterexample :
  (~ exists q : fl,
       fadd (fdiv (Fin 1) (Fin 0)) (fdiv (Fin 1) q) = Fin 1) /\
  (~ exists np_power : fl -> fl -> fl,
       call np_power (convex_conj (convex_conj (LpNorm (rn 1) NInf)))
            [Fin 1]
       = call np_power (LpNorm (rn 1) NInf) [Fin 1]).
Proof.
  split.
  - intros [q E].
    replace (fdiv (Fin 1) (Fin 0)) with PInf in E
      by (cbn; rdec; reflexivity).
    destruct (fdiv (Fin 1) q); discriminate.
  - intros [np_power E]. cbn in E. discriminate.
Qed.

(** ** The conjugate of a quadratic form *)

Section QuadraticConjFacts.

Context {Op : Type} `{Operator Op}.

(** Without a vector the conjugate is the quadratic form of the inverse
    operator with the opposite constant, and conjugating twice gives the
    form back. *)
Lemma QuadraticForm_biconj_no_vector (A : Op) (c : fl) :
  op_inverse (op_inverse A) = A ->
  let f := mkQuadraticForm (op_domain A) false (Some A) None c in
  QuadraticForm_init (Some A) None c = Ok f /\
  exists q,
    QuadraticForm_convex_conj f = Ok (ConjQuadraticForm q) /\
    QuadraticForm_convex_conj q = Ok (ConjQuadraticForm f).
Proof.
  intros Hinv f. split; [reflexivity|].
  eexists. split; [reflexivity|].
  cbn. rewrite Hinv, fopp_involutive. reflexivity.
Qed.

End QuadraticConjFacts.

(** On [rn(1)] with the operator that scales by [a] and the vector [b],
    the form is [a x^2 + b x + c], while conjugating twice yields the form
    [a x^2 + 4 b x + 3 b^2 / a + c]. *)
Lemma QuadraticForm_biconj_scaling (a b c x : R) :
  a <> 0 ->
  exists f q1 q2,
    QuadraticForm_init (Some (mkScaling (rn 1) (Fin a)))
       (Some (mkElement (rn 1) [Fin b])) (Fin c) = Ok f /\
    QuadraticForm_convex_conj f = Ok (ConjQuadraticForm q1) /\
    QuadraticForm_convex_conj q1 = Ok (ConjQuadraticForm q2) /\
    QuadraticForm_call f [Fin x] = Ok (Fin (a * x * x + b * x + c)) /\
    QuadraticForm_call q2 [Fin x]
    = Ok (Fin (a * x * x + 4 * b * x + 3 * b * b / a + c)).
Proof.
  intros Ha.
  eexists; eexists; eexists.
  split; [reflexivity|].
  split; [reflexivity|].
  split; [reflexivity|].
  assert (Hia : 1 / a <> 0).
  { unfold Rdiv. rewrite Rmult_1_l. apply Rinv_neq_0_compat, Ha. }
  split.
  - cbn. do 2 f_equal. ring.
  - cbn -[fdiv]. rewrite !fdiv_Fin by assumption. cbn.
    do 2 f_equal. field. assumption.
Qed.

(** C1, failing input: for the identity operator on [rn(1)], the vector
    [b = 1] and the constant [c = 0], the quadratic form evaluates to 2 at
    [x = 1] while [convex_conj.convex_conj] evaluates to 8 there. *)
Theorem QuadraticForm_biconj_diverges :
  exists f q1 q2,
    QuadraticForm_init (Some (IdentityOperator (rn 1)))
       (Some (mkElement (rn 1) [Fin 1])) (Fin 0) = Ok f /\
    QuadraticForm_convex_conj f = Ok (ConjQuadraticForm q1) /\
    QuadraticForm_convex_conj q1 = Ok (ConjQuadraticForm q2) /\
    QuadraticForm_call f [Fin 1] = Ok (Fin 2) /\
    QuadraticForm_call q2 [Fin 1] = Ok (Fin 8).
Proof.
  eexists; eexists; eexists.
  split; [reflexivity|].
  split; [reflexivity|].
  split; [reflexivity|].
  split.
  - cbn. do 2 f_equal. lra.
  - cbn. rdec. cbn. do 2 f_equal. rdec. field.
Qed.

(** ** The examples of the documentation *)

Lemma fabs_nonneg (r : R) : 0 <= r -> fabs (Fin r) = Fin r.
Proof. intros Hr. cbn. rewrite Rabs_pos_eq by assumption. reflexivity. Qed.

Lemma fsqrt_square (r s : R) : 0 <= s -> r = s * s -> fsqrt (Fin r) = Fin s.
Proof.
  intros Hs ->. cbn. rdec; [nra|]. f_equal. apply sqrt_lem_1; nra.
Qed.

(** [LpNorm(p=1)([3, 4]) == 7] and [LpNorm(p=2)([3, 4]) == 5]. *)
Example LpNorm_3_4 :
  forall np_power,
    call np_power (L1Norm (rn 2)) [Fin 3; Fin 4] = Ok (Fin 7) /\
    call np_power (L2Norm (rn 2)) [Fin 3; Fin 4] = Ok (Fin 5).
Proof.
  intros np_power. unfold call, LpNorm_call, inner.
  replace (feqb (Fin 1) (Fin 0)) with false by (cbn; rdec; reflexivity).
  replace (feqb (Fin 1) (Fin 1)) with true by (cbn; rdec; reflexivity).
  replace (feqb (Fin 2) (Fin 0)) with false by (cbn; rdec; reflexivity).
  replace (feqb (Fin 2) (Fin 1)) with false by (cbn; rdec; reflexivity).
  replace (feqb (Fin 2) (Fin 2)) with true by (cbn; rdec; reflexivity).
  split.
  - cbn -[fabs]. rewrite !fabs_nonneg by lra. cbn. do 2 f_equal. lra.
  - cbn -[fsqrt]. f_equal. apply fsqrt_square; lra.
Qed.

(** [GroupL1Norm] on the components [[3, 3]] and [[4, 4]]: 10 with the
    default exponent, 14 with the exponent 1. *)
Example GroupL1Norm_3_4 :
  forall np_power,
    GroupL1Norm_call np_power (mkGroupL1Norm (rn 2) 2 (Fin 2))
      [[Fin 3; Fin 3]; [Fin 4; Fin 4]] = Fin 10 /\
    GroupL1Norm_call np_power (mkGroupL1Norm (rn 2) 2 (Fin 1))
      [[Fin 3; Fin 3]; [Fin 4; Fin 4]] = Fin 14.
Proof.
  intros np_power.
  unfold GroupL1Norm_call, PointwiseNorm_call, inner.
  cbn [gl_base gl_exponent].
  replace (feqb (Fin 1) (Fin 1)) with true by (cbn; rdec; reflexivity).
  replace (feqb (Fin 2) (Fin 1)) with false by (cbn; rdec; reflexivity).
  replace (feqb (Fin 2) (Fin 2)) with true by (cbn; rdec; reflexivity).
  split.
  - cbn -[fabs fsqrt]. rewrite !fabs_nonneg by lra. cbn -[fsqrt].
    rewrite (fsqrt_square _ 5) by lra. cbn. f_equal. lra.
  - cbn -[fabs]. rewrite !fabs_nonneg by lra. cbn. f_equal. lra.
Qed.

(** [KullbackLeibler(prior=3*one)(3*one) == 0], and with the zero prior
    the value at the one-element of [rn(3)] is 3. *)
Example KullbackLeibler_doc :
  KullbackLeibler_call (rn 3) (Some [Fin 3; Fin 3; Fin 3])
    [Fin 3; Fin 3; Fin 3] = Fin 0 /\
  KullbackLeibler_call (rn 3) (Some [Fin 0; Fin 0; Fin 0])
    [Fin 1; Fin 1; Fin 1] = Fin 3.
Proof.
  assert (E3 : xlogy (Fin 3) (fdiv (Fin 3) (Fin 3)) = Fin 0).
  { rewrite fdiv_Fin by lra. unfold xlogy. cbn. rdec. cbn. f_equal.
    replace (3 / 3) with 1 by lra. rewrite ln_1. lra. }
  assert (E0 : xlogy (Fin 0) (fdiv (Fin 0) (Fin 1)) = Fin 0).
  { rewrite fdiv_Fin by lra. unfold xlogy. cbn. rdec. reflexivity. }
  unfold KullbackLeibler_call, inner. split.
  - cbn -[xlogy fdiv]. rewrite !E3. cbn. f_equal. lra.
  - cbn -[xlogy fdiv]. rewrite !E0. cbn. f_equal. lra.
Qed.

(** The one-element of [rn(3)] lies outside the unit simplex, its third
    inside. *)
Example IndicatorSimplex_doc :
  IndicatorSimplex_call (IndicatorSimplex_init (rn 3) (Fin 1) None)
    [Fin 1; Fin 1; Fin 1] = PInf /\
  IndicatorSimplex_call (IndicatorSimplex_init (rn 3) (Fin 1) None)
    [Fin (1/3); Fin (1/3); Fin (1/3)] = Fin 0.
Proof.
  assert (H3 : INR 3 = 3) by (cbn; lra).
  unfold IndicatorSimplex_call, IndicatorSimplex_init.
  cbn [diameter sum_rtol dtype_of rn dtype_eqb size fmul fsum fold_right fadd].
  rewrite H3. split.
  - rewrite fdiv_Fin by lra. cbn [fsub fopp fadd fabs fleb].
    replace (1 + (1 + (1 + 0))) with 3 by lra.
    replace (Rabs (3 / 1 + - (1))) with 2
      by (rewrite Rabs_pos_eq; lra).
    unfold Rleb. destruct (Rle_dec _ _); [lra|reflexivity].
  - rewrite fdiv_Fin by lra. cbn [fsub fopp fadd fabs fleb].
    replace ((1 / 3 + (1 / 3 + (1 / 3 + 0))) / 1 + - (1)) with 0 by lra.
    rewrite Rabs_R0.
    rewrite (proj2 (Rleb_le _ _)) by lra.
    cbn. unfold fgeb. cbn. rewrite !(proj2 (Rleb_le _ _)) by lra.
    reflexivity.
Qed.

(** * Further properties of the file *)

(** ** Elements with finite components *)

Lemma fsum_finite (l : list R) : fsum (finite l) = Fin (Rsum l).
Proof.
  induction l as [|a l IH]; [reflexivity|].
  cbn [finite map fsum fold_right]. fold (finite l). fold (fsum (finite l)).
  rewrite IH. reflexivity.
Qed.

Lemma vzip_finite (f : fl -> fl -> fl) (g : R -> R -> R) (a b : list R) :
  (forall u v, f (Fin u) (Fin v) = Fin (g u v)) ->
  vzip f (finite a) (finite b)
  = finite (map (fun p => g (fst p) (snd p)) (combine a b)).
Proof.
  intros Hf. revert b. induction a as [|u a IH]; intros [|v b];
    try reflexivity.
  cbn [finite map combine]. rewrite vzip_cons. fold (finite a) (finite b).
  rewrite IH, Hf. reflexivity.
Qed.

Lemma inner_finite (a b : list R) :
  inner (finite a) (finite b) = Fin (Rdot a b).
Proof.
  unfold inner, Rdot.
  rewrite (vzip_finite fmul Rmult) by reflexivity.
  apply fsum_finite.
Qed.

Lemma finite_length (l : list R) : length (finite l) = length l.
Proof. apply length_map. Qed.

Lemma Rsum_cons (a : R) (l : list R) : Rsum (a :: l) = a + Rsum l.
Proof. reflexivity. Qed.

Lemma Rsum_nonneg (l : list R) : Forall (fun a => 0 <= a) l -> 0 <= Rsum l.
Proof.
  induction 1 as [|a l Ha _ IH]; [cbn; lra|]. rewrite Rsum_cons. lra.
Qed.

Lemma Rsum_zero (l : list R) :
  Forall (fun a => 0 <= a) l -> Rsum l = 0 -> Forall (fun a => a = 0) l.
Proof.
  induction 1 as [|a l Ha Hl IH]; intros Hs; constructor;
    rewrite Rsum_cons in Hs; pose proof (Rsum_nonneg l Hl).
  - lra.
  - apply IH. lra.
Qed.

Lemma Rdot_repeat_0_l (n : nat) (b : list R) : Rdot (repeat 0 n) b = 0.
Proof.
  unfold Rdot. revert b. induction n as [|n IH]; intros [|v b];
    try reflexivity.
  cbn [repeat combine map fst snd]. rewrite Rsum_cons, IH. lra.
Qed.

Lemma finite_repeat (r : R) (n : nat) : finite (repeat r n) = repeat (Fin r) n.
Proof. apply map_repeat. Qed.

Lemma finite_inj (a b : list R) : finite a = finite b -> a = b.
Proof.
  revert b. induction a as [|u a IH]; intros [|v b] E; try discriminate;
    [reflexivity|].
  cbn in E. injection E as Euv Eab. f_equal; [assumption|apply IH, Eab].
Qed.

(** ** The zero indicator and the constant functional *)

Lemma norm_repeat_0 (n : nat) : norm (repeat (Fin 0) n) = Fin 0.
Proof.
  unfold norm. rewrite inner_zero. cbn. rdec. f_equal. apply sqrt_0.
Qed.

(** X1: [IndicatorZero] evaluates to its constant at the zero element and to
    +inf at every other element, whatever its length and whether or not its
    components are finite. *)
Theorem IndicatorZero_call_spec :
  forall (f : IndicatorZero) (x : element),
    (x = repeat (Fin 0) (length x) -> IndicatorZero_call f x = iz_constant f)
    /\
    (x <> repeat (Fin 0) (length x) -> IndicatorZero_call f x = PInf).
Proof.
  intros f x. unfold IndicatorZero_call. split.
  - intros ->. rewrite norm_repeat_0. cbn. rdec. reflexivity.
  - intros Hx. destruct (feqb (norm x) (Fin 0)) eqn:Hn; [|reflexivity].
    exfalso. apply Hx, norm_eq_zero, Hn.
Qed.

Lemma IndicatorZero_call_spec_witness :
  IndicatorZero_call (mkIndicatorZero (rn 3) (Fin 2)) [Fin 0; Fin 0; Fin 0]
  = Fin 2 /\
  IndicatorZero_call (mkIndicatorZero (rn 3) (Fin 2)) [Fin 0; Fin 0; Fin 1]
  = PInf.
Proof.
  split.
  - apply (IndicatorZero_call_spec (mkIndicatorZero (rn 3) (Fin 2))
             [Fin 0; Fin 0; Fin 0]).
    reflexivity.
  - apply (IndicatorZero_call_spec (mkIndicatorZero (rn 3) (Fin 2))
             [Fin 0; Fin 0; Fin 1]).
    cbn. intros E. injection E. lra.
Defined.

Lemma feqb_fopp_0 (c : fl) : feqb (fopp c) (Fin 0) = feqb c (Fin 0).
Proof. destruct c; cbn; try reflexivity. rdec; reflexivity. Qed.

(** X2: [IndicatorZero] and [ConstantFunctional] are conjugate to each
    other with the opposite constant: conjugating either of them twice
    gives the functional back, and the zero functional is the conjugate of
    the plain indicator of the origin.  For finite arguments the pair
    satisfies the Fenchel-Young inequality
    [<x, y> <= f(x) + f^*(y)]. *)
Theorem IndicatorZero_ConstantFunctional_conjugate :
  forall (sp : TensorSpace) (c : fl),
    ConstantFunctional_convex_conj
      (IndicatorZero_convex_conj (mkIndicatorZero sp c))
    = mkIndicatorZero sp c /\
    IndicatorZero_convex_conj
      (ConstantFunctional_convex_conj (ConstantFunctional_init sp c))
    = ConstantFunctional_init sp c /\
    cf_is_linear (IndicatorZero_convex_conj (mkIndicatorZero sp c))
    = feqb c (Fin 0) /\
    (forall (r : R) (x y : list R),
        c = Fin r -> length x = length y ->
        fleb (inner (finite x) (finite y))
             (fadd (IndicatorZero_call (mkIndicatorZero sp c) (finite x))
                   (ConstantFunctional_call
                      (IndicatorZero_convex_conj (mkIndicatorZero sp c))
                      (finite y)))
        = true).
Proof.
  intros sp c. split; [|split; [|split]].
  - unfold ConstantFunctional_convex_conj, IndicatorZero_convex_conj. cbn.
    rewrite fopp_involutive. reflexivity.
  - unfold ConstantFunctional_convex_conj, IndicatorZero_convex_conj,
      ConstantFunctional_init. cbn.
    rewrite fopp_involutive. reflexivity.
  - cbn. apply feqb_fopp_0.
  - intros r x y -> Hl. rewrite inner_finite.
    unfold ConstantFunctional_call, IndicatorZero_convex_conj. cbn.
    unfold IndicatorZero_call.
    destruct (feqb (norm (finite x)) (Fin 0)) eqn:Hn.
    + apply norm_eq_zero in Hn.
      rewrite finite_length, <- finite_repeat in Hn. apply finite_inj in Hn.
      cbn. rewrite Hn, Rdot_repeat_0_l. apply Rleb_le. lra.
    + reflexivity.
Qed.

(** ** Conjugates and proximal factories in the Lp family *)

Lemma conj_exponent_2 : conj_exponent (Fin 2) = Fin 2.
Proof. rewrite conj_exponent_Fin by lra. f_equal. field. Qed.

Lemma feqb_refl_Fin (r : R) : feqb (Fin r) (Fin r) = true.
Proof. cbn. apply Reqb_true. reflexivity. Qed.

Lemma feqb_Fin_neq (r s : R) : r <> s -> feqb (Fin r) (Fin s) = false.
Proof. intros. cbn. apply Reqb_false. assumption. Qed.

(** X3: for the exponents 1, 2 and inf, conjugating
    [IndicatorLpUnitBall(space, q)] twice gives the same indicator back,
    through [LpNorm] with exponent inf at [q = 1], [L2Norm] at [q = 2] and
    [L1Norm] at [q = inf]; the exponent -inf comes back as NaN. *)
Theorem IndicatorLpUnitBall_biconj :
  forall (sp : TensorSpace) (q : fl),
    In q [Fin 1; Fin 2; PInf] ->
    convex_conj (convex_conj (IndicatorLpUnitBall sp q))
    = IndicatorLpUnitBall sp q /\
    convex_conj (IndicatorLpUnitBall sp (Fin 1)) = LpNorm sp PInf /\
    convex_conj (IndicatorLpUnitBall sp (Fin 2)) = L2Norm sp /\
    convex_conj (IndicatorLpUnitBall sp PInf) = L1Norm sp /\
    convex_conj (convex_conj (IndicatorLpUnitBall sp NInf))
    = IndicatorLpUnitBall sp NaN.
Proof.
  intros sp q Hq.
  assert (H1 : convex_conj (IndicatorLpUnitBall sp (Fin 1))
               = LpNorm sp PInf).
  { cbn [convex_conj]. change (feqb (Fin 1) PInf) with false. cbv iota.
    rewrite (feqb_Fin_neq 1 2) by lra. rewrite conj_exponent_1.
    reflexivity. }
  assert (H2 : convex_conj (IndicatorLpUnitBall sp (Fin 2)) = L2Norm sp).
  { cbn [convex_conj]. change (feqb (Fin 2) PInf) with false. cbv iota.
    rewrite feqb_refl_Fin. reflexivity. }
  split; [|split; [exact H1|split; [exact H2|split; reflexivity]]].
  destruct Hq as [<-|[<-|[<-|[]]]].
  - rewrite H1. reflexivity.
  - rewrite H2. cbn [convex_conj exponent_of]. rewrite conj_exponent_2.
    reflexivity.
  - cbn [convex_conj feqb exponent_of]. rewrite conj_exponent_1.
    reflexivity.
Qed.

Lemma IndicatorLpUnitBall_biconj_witness :
  In (Fin 2) [Fin 1; Fin 2; PInf] /\
  convex_conj (convex_conj (IndicatorLpUnitBall (rn 3) (Fin 2)))
  = IndicatorLpUnitBall (rn 3) (Fin 2).
Proof.
  assert (H : In (Fin 2) [Fin 1; Fin 2; PInf]) by (right; left; reflexivity).
  split; [exact H|].
  apply (IndicatorLpUnitBall_biconj (rn 3) (Fin 2) H).
Defined.

Lemma exponent_cases (p : fl) :
  (p = Fin 1 /\ feqb p (Fin 1) = true /\ feqb p (Fin 2) = false /\
   feqb p PInf = false) \/
  (p = Fin 2 /\ feqb p (Fin 1) = false /\ feqb p (Fin 2) = true /\
   feqb p PInf = false) \/
  (p = PInf /\ feqb p (Fin 1) = false /\ feqb p (Fin 2) = false /\
   feqb p PInf = true) \/
  (~ In p [Fin 1; Fin 2; PInf] /\ feqb p (Fin 1) = false /\
   feqb p (Fin 2) = false /\ feqb p PInf = false).
Proof.
  destruct p as [r| | |].
  - destruct (Req_dec_T r 1) as [->|H1].
    { left. split; [reflexivity|]. split; [apply feqb_refl_Fin|].
      split; [apply feqb_Fin_neq; lra|reflexivity]. }
    destruct (Req_dec_T r 2) as [->|H2].
    + right. left. split; [reflexivity|].
      split; [apply feqb_Fin_neq; lra|].
      split; [apply feqb_refl_Fin|reflexivity].
    + right. right. right. split.
      * intros [E|[E|[E|[]]]]; try discriminate; injection E; lra.
      * split; [apply feqb_Fin_neq; assumption|].
        split; [apply feqb_Fin_neq; assumption|reflexivity].
  - right. right. left. repeat split.
  - right. right. right. split; [|repeat split].
    intros [E|[E|[E|[]]]]; discriminate.
  - right. right. right. split; [|repeat split].
    intros [E|[E|[E|[]]]]; discriminate.
Qed.

(** X4: [LpNorm] has a proximal factory exactly for the exponents 1, 2 and
    inf, and so has [IndicatorLpUnitBall]; every other exponent raises
    [NotImplementedError].  For the exponents 1, 2 and inf the convex
    conjugate of the norm has the factory that matches the factory of the
    norm ([proximal_l1] goes with [proximal_convex_conj_l1], and so
    on). *)
Theorem LpNorm_proximal_conjugate :
  forall (sp : TensorSpace) (p : fl),
    (In p [Fin 1; Fin 2; PInf] ->
     exists factory,
       proximal (LpNorm sp p) = Ok factory /\
       proximal (convex_conj (LpNorm sp p)) = Ok (conj_factory factory)) /\
    (proximal (LpNorm sp p) = Err NotImplementedError <->
     ~ In p [Fin 1; Fin 2; PInf]) /\
    (proximal (IndicatorLpUnitBall sp p) = Err NotImplementedError <->
     ~ In p [Fin 1; Fin 2; PInf]) /\
    proximal (L1Norm sp) = Ok (proximal_l1 (Tensor sp)) /\
    proximal (L2Norm sp) = Ok (proximal_l2 (Tensor sp)).
Proof.
  intros sp p. split; [|split; [|split; [|split]]].
  - intros [<-|[<-|[<-|[]]]]; cbn [proximal convex_conj exponent_of domain_of];
      unfold LpNorm_proximal, IndicatorLpUnitBall_proximal.
    + rewrite conj_exponent_1, feqb_refl_Fin. eexists.
      split; reflexivity.
    + rewrite conj_exponent_2, (feqb_Fin_neq 2 1), feqb_refl_Fin by lra.
      eexists. split; reflexivity.
    + rewrite conj_exponent_inf, feqb_refl_Fin, (feqb_Fin_neq 1 2) by lra.
      cbn [feqb]. eexists. split; reflexivity.
  - cbn [proximal exponent_of domain_of]. unfold LpNorm_proximal.
    destruct (exponent_cases p)
      as [[-> [E1 [E2 E3]]]|[[-> [E1 [E2 E3]]]|[[-> [E1 [E2 E3]]]|
          [Hn [E1 [E2 E3]]]]]];
      rewrite ?E1, ?E2, ?E3; split; intros H; try discriminate;
      try assumption; try reflexivity; exfalso; apply H; cbn; auto.
  - cbn [proximal]. unfold IndicatorLpUnitBall_proximal.
    destruct (exponent_cases p)
      as [[-> [E1 [E2 E3]]]|[[-> [E1 [E2 E3]]]|[[-> [E1 [E2 E3]]]|
          [Hn [E1 [E2 E3]]]]]];
      rewrite ?E1, ?E2, ?E3; split; intros H; try discriminate;
      try assumption; try reflexivity; exfalso; apply H; cbn; auto.
  - cbn. unfold LpNorm_proximal. rewrite feqb_refl_Fin. reflexivity.
  - cbn. unfold LpNorm_proximal. rewrite feqb_refl_Fin.
    rewrite (feqb_Fin_neq 2 1) by lra. reflexivity.
Qed.

Lemma fltb_1_1 : fltb (Fin 1) (Fin 1) = false.
Proof. cbn; rdec; reflexivity. Qed.

Lemma fltb_2_1 : fltb (Fin 2) (Fin 1) = false.
Proof. cbn; rdec; reflexivity. Qed.

Ltac group_exps :=
  repeat first
    [ rewrite conj_exponent_1 | rewrite conj_exponent_2
    | rewrite conj_exponent_inf | rewrite feqb_refl_Fin
    | rewrite fltb_1_1 | rewrite fltb_2_1
    | rewrite (feqb_Fin_neq 1 2) by lra | rewrite (feqb_Fin_neq 2 1) by lra
    | progress change (fltb PInf (Fin 1)) with false
    | progress change (feqb (Fin 1) PInf) with false
    | progress change (feqb (Fin 2) PInf) with false
    | progress change (feqb PInf (Fin 1)) with false
    | progress change (feqb PInf (Fin 2)) with false
    | progress change (feqb PInf PInf) with true
    | progress cbn [bind igl_base igl_m igl_exponent Result_map
                    conj_factory] ].

(** X5: for the exponents 1, 2 and inf, the convex conjugate of
    [GroupL1Norm] is the [IndicatorGroupL1UnitBall] with the conjugate
    exponent, which its constructor accepts; conjugating twice gives the
    norm back, and the proximal factory of the conjugate is the one
    matching the proximal factory of the norm (available for the exponents
    1 and 2 only). *)
Theorem GroupL1Norm_conjugate :
  forall (f : GroupL1Norm),
    In (gl_exponent f) [Fin 1; Fin 2; PInf] ->
    exists g,
      GroupL1Norm_convex_conj f = Ok g /\
      igl_exponent g = conj_exponent (gl_exponent f) /\
      In (igl_exponent g) [Fin 1; Fin 2; PInf] /\
      IndicatorGroupL1UnitBall_convex_conj g = Ok f /\
      IndicatorGroupL1UnitBall_proximal g
      = Result_map conj_factory (GroupL1Norm_proximal f).
Proof.
  intros [base m p] Hp. cbn [gl_exponent] in Hp.
  unfold GroupL1Norm_convex_conj, IndicatorGroupL1UnitBall_convex_conj,
    IndicatorGroupL1UnitBall_init, GroupL1Norm_init, PointwiseNorm_exponent,
    IndicatorGroupL1UnitBall_proximal, GroupL1Norm_proximal.
  cbn [gl_base gl_m gl_exponent].
  destruct Hp as [<-|[<-|[<-|[]]]]; group_exps; eexists;
    (split; [reflexivity|]); group_exps; repeat split; cbn; auto.
Qed.

Lemma GroupL1Norm_conjugate_witness :
  In (Fin 2) [Fin 1; Fin 2; PInf] /\
  exists g,
    GroupL1Norm_convex_conj (mkGroupL1Norm (rn 2) 2 (Fin 2)) = Ok g /\
    igl_exponent g = conj_exponent (Fin 2) /\
    In (igl_exponent g) [Fin 1; Fin 2; PInf] /\
    IndicatorGroupL1UnitBall_convex_conj g
    = Ok (mkGroupL1Norm (rn 2) 2 (Fin 2)) /\
    IndicatorGroupL1UnitBall_proximal g
    = Result_map conj_factory
        (GroupL1Norm_proximal (mkGroupL1Norm (rn 2) 2 (Fin 2))).
Proof.
  assert (H : In (Fin 2) [Fin 1; Fin 2; PInf]) by (right; left; reflexivity).
  split; [exact H|].
  exact (GroupL1Norm_conjugate (mkGroupL1Norm (rn 2) 2 (Fin 2)) H).
Defined.

(** ** The nuclear norm and its unit ball *)

Ltac exps :=
  repeat first
    [ rewrite conj_exponent_1 | rewrite conj_exponent_2
    | rewrite conj_exponent_inf | rewrite feqb_refl_Fin
    | rewrite (feqb_Fin_neq 1 2) by lra | rewrite (feqb_Fin_neq 2 1) by lra
    | progress cbn [negb orb andb feqb bind nn_outer_exp
                    nn_singular_vector_exp inn_outer_exp
                    inn_singular_vector_exp] ].

(** X6: for the documented exponents 1, 2 and inf, [NuclearNorm] and
    [IndicatorNuclearNormUnitBall] are conjugate to each other with the
    conjugate exponents, and conjugating twice gives the functional back.
    The proximal factory of the norm exists exactly for the outer exponent
    1, that of the indicator, obtained by duality, exactly for the outer
    exponent inf; in particular the indicator with the default exponents
    (1, 2) has no proximal factory. *)
Theorem NuclearNorm_conjugate_proximal :
  forall p q : fl,
    In p [Fin 1; Fin 2; PInf] -> In q [Fin 1; Fin 2; PInf] ->
    IndicatorNuclearNormUnitBall_convex_conj
      (NuclearNorm_convex_conj (mkNuclearNorm p q)) = mkNuclearNorm p q /\
    NuclearNorm_convex_conj
      (IndicatorNuclearNormUnitBall_convex_conj
         (mkIndicatorNuclearNormUnitBall p q))
    = mkIndicatorNuclearNormUnitBall p q /\
    NuclearNorm_proximal (mkNuclearNorm p q)
    = (if feqb p (Fin 1) then Ok (NuclearNormProximal p q)
       else Err NotImplementedError) /\
    IndicatorNuclearNormUnitBall_proximal
      (mkIndicatorNuclearNormUnitBall p q)
    = (if feqb p PInf
       then Ok (proximal_convex_conj
                  (NuclearNormProximal (Fin 1) (conj_exponent q)))
       else Err NotImplementedError) /\
    IndicatorNuclearNormUnitBall_proximal
      (mkIndicatorNuclearNormUnitBall (Fin 1) (Fin 2))
    = Err NotImplementedError.
Proof.
  intros p q Hp Hq.
  assert (Hpp : conj_exponent (conj_exponent p) = p).
  { apply conj_exponent_involutive. intros ->.
    cbn in Hp. intuition discriminate. }
  assert (Hqq : conj_exponent (conj_exponent q) = q).
  { apply conj_exponent_involutive. intros ->.
    cbn in Hq. intuition discriminate. }
  unfold IndicatorNuclearNormUnitBall_convex_conj, NuclearNorm_convex_conj,
    IndicatorNuclearNormUnitBall_proximal, NuclearNorm_proximal,
    IndicatorNuclearNormUnitBall_convex_conj.
  cbn [nn_outer_exp nn_singular_vector_exp inn_outer_exp
       inn_singular_vector_exp].
  rewrite Hpp, Hqq.
  split; [reflexivity|]. split; [reflexivity|].
  cbn in Hp, Hq.
  destruct Hp as [<-|[<-|[<-|[]]]]; destruct Hq as [<-|[<-|[<-|[]]]];
    exps; repeat split; reflexivity.
Qed.

Lemma NuclearNorm_conjugate_proximal_witness :
  In (Fin 1) [Fin 1; Fin 2; PInf] /\ In (Fin 2) [Fin 1; Fin 2; PInf] /\
  NuclearNorm_proximal (mkNuclearNorm (Fin 1) (Fin 2))
  = (if feqb (Fin 1) (Fin 1) then Ok (NuclearNormProximal (Fin 1) (Fin 2))
     else Err NotImplementedError).
Proof.
  assert (H1 : In (Fin 1) [Fin 1; Fin 2; PInf]) by (left; reflexivity).
  assert (H2 : In (Fin 2) [Fin 1; Fin 2; PInf])
    by (right; left; reflexivity).
  split; [exact H1|]. split; [exact H2|].
  exact (proj1 (proj2 (proj2
           (NuclearNorm_conjugate_proximal (Fin 1) (Fin 2) H1 H2)))).
Defined.

(** ** Separable sums *)

Lemma forallb_is_Func_map {F : Type} (fs : list F) :
  forallb (@is_Func F) (map Func fs) = true.
Proof. induction fs as [|f fs IH]; [reflexivity|exact IH]. Qed.

Lemma the_functionals_map {F : Type} (fs : list F) :
  the_functionals (map Func fs) = fs.
Proof.
  induction fs as [|f fs IH]; [reflexivity|]. cbn. rewrite IH. reflexivity.
Qed.

Lemma SeparableSum_init_functionals {F : Type} (lin : F -> bool)
  (fs : list F) :
  SeparableSum_init lin (map Func fs)
  = match fs with
    | [] => Err ValueError
    | _ => Ok (mkSeparableSum (forallb lin fs) fs)
    end.
Proof.
  unfold SeparableSum_init.
  assert (E : match map Func fs with
              | [a; Integral n] => repeat a (Z.to_nat n)
              | _ => map Func fs
              end = map Func fs).
  { destruct fs as [|f [|g [|h fs]]]; reflexivity. }
  rewrite E, forallb_is_Func_map, the_functionals_map. cbn.
  destruct fs; reflexivity.
Qed.

Lemma map_repeat_Func {F : Type} (f : F) (n : nat) :
  map Func (repeat f n) = repeat (Func f) n.
Proof. apply map_repeat. Qed.

Lemma forallb_false_In {A : Type} (p : A -> bool) (l : list A) (a : A) :
  In a l -> p a = false -> forallb p l = false.
Proof.
  intros Hin Hp. destruct (forallb p l) eqn:E; [|reflexivity].
  rewrite forallb_forall in E. rewrite (E a Hin) in Hp. discriminate.
Qed.

(** X7: the constructor of [SeparableSum] given functionals builds the sum
    of exactly these, which is linear if and only if every summand is;
    [SeparableSum(f, n)] is the sum of [n] copies of [f]; an argument that
    is not a functional (other than the count of the short form) raises
    [TypeError], and no summand at all raises [ValueError]. *)
Theorem SeparableSum_init_spec :
  forall (F : Type) (lin : F -> bool),
    (forall (f : F) (fs : list F),
        exists s,
          SeparableSum_init lin (map Func (f :: fs)) = Ok s /\
          functionals s = f :: fs /\
          (ss_is_linear s = true <-> Forall (fun g => lin g = true) (f :: fs)))
    /\
    (forall (f : F) (n : Z),
        SeparableSum_init lin [Func f; Integral n]
        = SeparableSum_init lin (map Func (repeat f (Z.to_nat n)))) /\
    (forall (f : F) (n : Z),
        (n <= 0)%Z ->
        SeparableSum_init lin [Func f; Integral n] = Err ValueError) /\
    SeparableSum_init lin [] = Err ValueError /\
    (forall (args : list (argument F)) (a : argument F),
        (forall b n, args <> [b; Integral n]) ->
        In a args -> is_Func a = false ->
        SeparableSum_init lin args = Err TypeError).
Proof.
  intros F lin. split; [|split; [|split; [|split]]].
  - intros f fs. rewrite SeparableSum_init_functionals.
    eexists. split; [reflexivity|]. split; [reflexivity|].
    cbn [ss_is_linear]. apply forallb_Forall_true.
  - intros f n. rewrite map_repeat_Func. unfold SeparableSum_init.
    assert (E : match repeat (Func f) (Z.to_nat n) with
                | [a; Integral k] => repeat a (Z.to_nat k)
                | _ => repeat (Func f) (Z.to_nat n)
                end = repeat (Func f) (Z.to_nat n)).
    { destruct (Z.to_nat n) as [|[|[|k]]]; reflexivity. }
    rewrite E. reflexivity.
  - intros f n Hn. unfold SeparableSum_init.
    replace (Z.to_nat n) with 0%nat by lia. reflexivity.
  - reflexivity.
  - intros args a Hshort Hin Ha. unfold SeparableSum_init.
    assert (E : match args with
                | [b; Integral n] => repeat b (Z.to_nat n)
                | _ => args
                end = args).
    { destruct args as [|b [|[g|n|] [|c args]]]; try reflexivity.
      exfalso. apply (Hshort b n). reflexivity. }
    rewrite E, (forallb_false_In _ _ a Hin Ha). reflexivity.
Qed.




Lemma fadd_comm (a b : fl) : fadd a b = fadd b a.
Proof. destruct a, b; cbn; try reflexivity. f_equal. lra. Qed.


Section SeparableSumFacts.

Variable F : Type.
Variable F_call : F -> element -> Result fl.
Variable F_convex_conj : F -> F.
Variable F_is_linear : F -> bool.




Lemma sum_biconj (gs : list F) (x : list element) (acc : Result fl) :
  (forall f y, In f gs ->
               F_call (F_convex_conj (F_convex_conj f)) y = F_call f y) ->
  fold_left (SeparableSum_step F_call)
            (combine x (map F_convex_conj (map F_convex_conj gs))) acc
  = fold_left (SeparableSum_step F_call) (combine x gs) acc.
Proof.
  revert x acc. induction gs as [|g gs IH]; intros x acc Hbi.
  - destruct x; reflexivity.
  - destruct x as [|xi x]; [reflexivity|].
    cbn [map combine fold_left]. rewrite IH.
    + unfold SeparableSum_step at 2 4. cbn [fst snd].
      rewrite Hbi by (left; reflexivity). reflexivity.
    + intros h y Hin. apply Hbi. right. assumption.
Qed.

(** X9: the convex conjugate of a separable sum is the separable sum of the
    conjugates of the summands; if conjugating twice does not change how a
    summand evaluates, it does not change how the sum evaluates. *)
Theorem SeparableSum_convex_conj_spec :
  forall (s : SeparableSum F),
    functionals s <> [] ->
    (exists c,
        SeparableSum_convex_conj F_convex_conj F_is_linear s = Ok c /\
        functionals c = map F_convex_conj (functionals s)) /\
    ((forall f x, In f (functionals s) ->
                  F_call (F_convex_conj (F_convex_conj f)) x = F_call f x) ->
     exists c cc,
       SeparableSum_convex_conj F_convex_conj F_is_linear s = Ok c /\
       SeparableSum_convex_conj F_convex_conj F_is_linear c = Ok cc /\
       forall x, SeparableSum_call F_call cc x = SeparableSum_call F_call s x).
Proof.
  intros [lin fs] Hne. cbn [functionals] in *.
  destruct fs as [|f fs]; [congruence|]. clear Hne.
  unfold SeparableSum_convex_conj. cbn [functionals].
  rewrite SeparableSum_init_functionals. cbn [map]. split.
  - eexists. split; reflexivity.
  - intros Hbi. eexists. eexists. split; [reflexivity|].
    cbn [functionals]. rewrite SeparableSum_init_functionals. cbn [map].
    split; [reflexivity|].
    intros x. exact (sum_biconj (f :: fs) x (Ok (Fin 0)) Hbi).
Qed.

End SeparableSumFacts.


Lemma SeparableSum_convex_conj_spec_witness :
  functionals (mkSeparableSum false [L1Norm (rn 1)]) <> [] /\
  exists c,
    SeparableSum_convex_conj convex_conj (fun _ => false)
      (mkSeparableSum false [L1Norm (rn 1)]) = Ok c /\
    functionals c = map convex_conj [L1Norm (rn 1)].
Proof.
  assert (H : functionals (mkSeparableSum false [L1Norm (rn 1)]) <> [])
    by discriminate.
  split; [exact H|].
  exact (proj1 (SeparableSum_convex_conj_spec Functional
                  (call (fun _ _ => NaN)) convex_conj (fun _ => false)
                  (mkSeparableSum false [L1Norm (rn 1)]) H)).
Defined.

(** ** What the Lp-norms compute on finite elements *)

Lemma map_fabs_finite (x : list R) :
  map fabs (finite x) = finite (map Rabs x).
Proof. unfold finite. rewrite !map_map. reflexivity. Qed.

Lemma inner_one_finite (sp : TensorSpace) (x : list R) :
  length x = size sp -> inner (finite x) (one sp) = Fin (Rsum x).
Proof.
  intros Hx. rewrite inner_one by (unfold in_space; rewrite finite_length;
                                   exact Hx).
  apply fsum_finite.
Qed.

Lemma Rsum_abs_nonneg (x : list R) : 0 <= Rsum (map Rabs x).
Proof.
  apply Rsum_nonneg. apply Forall_forall. intros a Ha.
  apply in_map_iff in Ha. destruct Ha as [r [<- _]]. apply Rabs_pos.
Qed.




Lemma scale_finite (a : R) (x : list R) :
  map (fmul (Fin a)) (finite x) = finite (map (Rmult a) x).
Proof. unfold finite. rewrite !map_map. reflexivity. Qed.

Lemma add_finite (x y : list R) :
  vzip fadd (finite x) (finite y)
  = finite (map (fun p => fst p + snd p) (combine x y)).
Proof. apply (vzip_finite fadd Rplus). reflexivity. Qed.

Section NormFacts.

Variable np_power : fl -> fl -> fl.

Lemma L1Norm_finite (sp : TensorSpace) (x : list R) :
  length x = size sp ->
  call np_power (L1Norm sp) (finite x) = Ok (Fin (Rsum (map Rabs x))).
Proof.
  intros Hx. cbn [call]. unfold LpNorm_call.
  rewrite (feqb_Fin_neq 1 0) by lra. rewrite feqb_refl_Fin.
  rewrite map_fabs_finite, inner_one_finite by (rewrite length_map; exact Hx).
  reflexivity.
Qed.


End NormFacts.


(** ** The L2-norm and the Cauchy-Schwarz inequality *)

Lemma Rdot_cons (a b : R) (x y : list R) :
  Rdot (a :: x) (b :: y) = a * b + Rdot x y.
Proof. reflexivity. Qed.

Lemma Rdot_nil_r (x : list R) : Rdot x [] = 0.
Proof. destruct x; reflexivity. Qed.

Lemma Rdot_self_nonneg (x : list R) : 0 <= Rdot x x.
Proof.
  induction x as [|a x IH]; [cbn; lra|]. rewrite Rdot_cons. nra.
Qed.

Lemma Rdot_self_zero (x : list R) :
  Rdot x x = 0 -> x = repeat 0 (length x).
Proof.
  induction x as [|a x IH]; intros H0; [reflexivity|].
  rewrite Rdot_cons in H0. pose proof (Rdot_self_nonneg x).
  cbn [length repeat]. f_equal; [nra|apply IH; nra].
Qed.

Lemma Rdot_scale (a : R) (x : list R) :
  Rdot (map (Rmult a) x) (map (Rmult a) x) = a * a * Rdot x x.
Proof.
  induction x as [|r x IH]; [cbn; lra|].
  cbn [map]. rewrite !Rdot_cons, IH. lra.
Qed.

Lemma Rdot_repeat_0_r (n : nat) (a : list R) : Rdot a (repeat 0 n) = 0.
Proof.
  revert a. induction n as [|n IH]; intros [|u a]; try reflexivity.
  cbn [repeat]. rewrite Rdot_cons, IH. lra.
Qed.

(** The square of [x + t y], expanded. *)
Lemma Rdot_line (t : R) (x y : list R) :
  length x = length y ->
  Rdot (map (fun p => fst p + t * snd p) (combine x y))
       (map (fun p => fst p + t * snd p) (combine x y))
  = Rdot x x + 2 * t * Rdot x y + t * t * Rdot y y.
Proof.
  revert y. induction x as [|a x IH]; intros [|b y] Hl; try discriminate.
  - cbn. lra.
  - cbn [combine map fst snd]. rewrite !Rdot_cons, IH by (injection Hl; auto).
    lra.
Qed.

Lemma Rdot_add (x y : list R) :
  length x = length y ->
  Rdot (map (fun p => fst p + snd p) (combine x y))
       (map (fun p => fst p + snd p) (combine x y))
  = Rdot x x + 2 * Rdot x y + Rdot y y.
Proof.
  intros Hl. pose proof (Rdot_line 1 x y Hl) as H.
  rewrite (map_ext (fun p => fst p + snd p) (fun p => fst p + 1 * snd p))
    by (intros; lra).
  rewrite H. lra.
Qed.

Lemma Cauchy_Schwarz (x y : list R) :
  length x = length y ->
  Rdot x y * Rdot x y <= Rdot x x * Rdot y y.
Proof.
  intros Hl.
  destruct (Req_dec_T (Rdot y y) 0) as [E|E].
  - apply Rdot_self_zero in E. rewrite E, Rdot_repeat_0_r.
    pose proof (Rdot_self_nonneg x).
    pose proof (Rdot_self_nonneg (repeat 0 (length y))). nra.
  - pose proof (Rdot_self_nonneg y) as Hy.
    pose proof (Rdot_line (- Rdot x y / Rdot y y) x y Hl) as H.
    pose proof (Rdot_self_nonneg
                  (map (fun p => fst p + - Rdot x y / Rdot y y * snd p)
                       (combine x y))) as Hp.
    rewrite H in Hp. clear H.
    set (A := Rdot x x) in *. set (B := Rdot y y) in *.
    set (C := Rdot x y) in *.
    assert (HB : 0 < B) by lra.
    replace (A + 2 * (- C / B) * C + - C / B * (- C / B) * B)
      with ((A * B - C * C) / B) in Hp by (field; lra).
    assert (0 <= (A * B - C * C) / B * B) by nra.
    replace ((A * B - C * C) / B * B) with (A * B - C * C) in * by
      (field; lra).
    lra.
Qed.

Lemma Cauchy_Schwarz_sqrt (x y : list R) :
  length x = length y ->
  Rabs (Rdot x y) <= sqrt (Rdot x x) * sqrt (Rdot y y).
Proof.
  intros Hl. pose proof (Cauchy_Schwarz x y Hl) as H.
  pose proof (Rdot_self_nonneg x). pose proof (Rdot_self_nonneg y).
  rewrite <- sqrt_mult by assumption.
  rewrite <- sqrt_Rsqr_abs. apply sqrt_le_1_alt. unfold Rsqr. exact H.
Qed.

Lemma sqrt_Rdot_triangle (x y : list R) :
  length x = length y ->
  sqrt (Rdot (map (fun p => fst p + snd p) (combine x y))
             (map (fun p => fst p + snd p) (combine x y)))
  <= sqrt (Rdot x x) + sqrt (Rdot y y).
Proof.
  intros Hl. rewrite Rdot_add by assumption.
  pose proof (Cauchy_Schwarz_sqrt x y Hl) as H.
  pose proof (Rdot_self_nonneg x) as Hx. pose proof (Rdot_self_nonneg y) as Hy.
  pose proof (sqrt_pos (Rdot x x)). pose proof (sqrt_pos (Rdot y y)).
  pose proof (sqrt_sqrt _ Hx). pose proof (sqrt_sqrt _ Hy).
  pose proof (Rle_abs (Rdot x y)).
  rewrite <- (sqrt_square (sqrt (Rdot x x) + sqrt (Rdot y y))) by lra.
  apply sqrt_le_1_alt. nra.
Qed.

Lemma norm_finite (x : list R) : norm (finite x) = Fin (sqrt (Rdot x x)).
Proof.
  unfold norm. rewrite inner_finite. cbn.
  pose proof (Rdot_self_nonneg x). rdec. reflexivity.
Qed.

Section L2NormFacts.

Variable np_power : fl -> fl -> fl.

Lemma L2Norm_finite (sp : TensorSpace) (x : list R) :
  call np_power (L2Norm sp) (finite x) = Ok (Fin (sqrt (Rdot x x))).
Proof.
  cbn [call]. unfold LpNorm_call.
  rewrite (feqb_Fin_neq 2 0), (feqb_Fin_neq 2 1) by lra.
  rewrite feqb_refl_Fin. fold (norm (finite x)). rewrite norm_finite.
  reflexivity.
Qed.

(** X11: in exact arithmetic, where [L2Norm] evaluates to the root of the
    sum of the squares without rounding, overflow or underflow, it is a
    norm on elements with finite components: it is nonnegative and
    vanishes at the zero element only, scales with the absolute value of a
    scalar factor and satisfies the triangle inequality; its square is the
    value of [L2NormSquared], and the inner product of two elements is
    bounded by the product of their norms.  (In float64 the square of a
    component below about 1e-162 underflows to 0, so these statements
    hold of the program up to rounding and away from underflow only.) *)
Theorem L2Norm_is_norm :
  forall (sp : TensorSpace) (a : R) (x y : list R),
    length x = size sp -> length y = size sp ->
    exists nx ny,
      call np_power (L2Norm sp) (finite x) = Ok (Fin nx) /\
      call np_power (L2Norm sp) (finite y) = Ok (Fin ny) /\
      0 <= nx /\
      (nx = 0 -> finite x = zero sp) /\
      L2NormSquared_call (finite x) = Fin (nx * nx) /\
      call np_power (L2Norm sp) (map (fmul (Fin a)) (finite x))
      = Ok (Fin (Rabs a * nx)) /\
      (exists nxy,
          call np_power (L2Norm sp) (vzip fadd (finite x) (finite y))
          = Ok (Fin nxy) /\
          nxy <= nx + ny) /\
      fleb (fabs (inner (finite x) (finite y))) (Fin (nx * ny)) = true.
Proof.
  intros sp a x y Hx Hy.
  assert (Hl : length x = length y) by congruence.
  pose proof (Rdot_self_nonneg x) as Hxx.
  exists (sqrt (Rdot x x)), (sqrt (Rdot y y)).
  split; [apply L2Norm_finite|]. split; [apply L2Norm_finite|].
  split; [apply sqrt_pos|].
  split.
  { intros H0. apply sqrt_eq_0 in H0; [|assumption].
    apply Rdot_self_zero in H0. rewrite H0, finite_repeat, Hx. reflexivity. }
  split.
  { unfold L2NormSquared_call. rewrite inner_finite, sqrt_sqrt by assumption.
    reflexivity. }
  split.
  { rewrite scale_finite, L2Norm_finite, Rdot_scale.
    rewrite sqrt_mult by (try assumption; nra).
    change (a * a) with (Rsqr a). rewrite sqrt_Rsqr_abs. reflexivity. }
  split.
  { eexists. split.
    - rewrite add_finite. apply L2Norm_finite.
    - apply sqrt_Rdot_triangle, Hl. }
  rewrite inner_finite. cbn [fabs]. cbn [fleb]. apply Rleb_le.
  apply Cauchy_Schwarz_sqrt, Hl.
Qed.

End L2NormFacts.

Lemma L2Norm_is_norm_witness :
  length [3; 4] = size (rn 2) /\ length [1; 0] = size (rn 2) /\
  exists nx ny,
    call (fun _ _ => NaN) (L2Norm (rn 2)) (finite [3; 4]) = Ok (Fin nx) /\
    call (fun _ _ => NaN) (L2Norm (rn 2)) (finite [1; 0]) = Ok (Fin ny) /\
    0 <= nx.
Proof.
  split; [reflexivity|]. split; [reflexivity|].
  destruct (L2Norm_is_norm (fun _ _ => NaN) (rn 2) 2 [3; 4] [1; 0]
              eq_refl eq_refl) as [nx [ny [Hx [Hy [Hv _]]]]].
  exists nx, ny. repeat split; assumption.
Defined.

(** ** The extreme exponents of the Lp-norm *)

Lemma fmax_Fin (a b : R) : fmax (Fin a) (Fin b) = Fin (Rmax a b).
Proof.
  unfold fmax, Rmax. cbn. rdec; destruct (Rle_dec a b); f_equal; lra.
Qed.

Lemma fmin_Fin (a b : R) : fmin (Fin a) (Fin b) = Fin (Rmin a b).
Proof.
  unfold fmin, Rmin. cbn. rdec; destruct (Rle_dec a b); f_equal; lra.
Qed.

Lemma fold_fmax_finite (t : list R) (a : R) :
  fold_left fmax (finite t) (Fin a) = Fin (fold_left Rmax t a).
Proof.
  revert a. induction t as [|b t IH]; intros a; [reflexivity|].
  cbn [finite map fold_left]. fold (finite t). rewrite fmax_Fin. apply IH.
Qed.

Lemma fold_fmin_finite (t : list R) (a : R) :
  fold_left fmin (finite t) (Fin a) = Fin (fold_left Rmin t a).
Proof.
  revert a. induction t as [|b t IH]; intros a; [reflexivity|].
  cbn [finite map fold_left]. fold (finite t). rewrite fmin_Fin. apply IH.
Qed.

Lemma fold_Rmax_spec (t : list R) (a : R) :
  Forall (fun r => r <= fold_left Rmax t a) (a :: t) /\
  In (fold_left Rmax t a) (a :: t).
Proof.
  revert a. induction t as [|b t IH]; intros a.
  - cbn. split; [constructor; [lra|constructor]|left; reflexivity].
  - cbn [fold_left]. destruct (IH (Rmax a b)) as [Hall Hin].
    inversion Hall as [|? ? Hm Ht]; subst. split.
    + pose proof (Rmax_l a b). pose proof (Rmax_r a b).
      constructor; [lra|]. constructor; [lra|assumption].
    + destruct Hin as [E|Hin]; [|right; right; assumption].
      rewrite <- E. unfold Rmax. destruct (Rle_dec a b);
        [right; left|left]; reflexivity.
Qed.

Lemma fold_Rmin_spec (t : list R) (a : R) :
  Forall (fun r => fold_left Rmin t a <= r) (a :: t) /\
  In (fold_left Rmin t a) (a :: t).
Proof.
  revert a. induction t as [|b t IH]; intros a.
  - cbn. split; [constructor; [lra|constructor]|left; reflexivity].
  - cbn [fold_left]. destruct (IH (Rmin a b)) as [Hall Hin].
    inversion Hall as [|? ? Hm Ht]; subst. split.
    + pose proof (Rmin_l a b). pose proof (Rmin_r a b).
      constructor; [lra|]. constructor; [lra|assumption].
    + destruct Hin as [E|Hin]; [|right; right; assumption].
      rewrite <- E. unfold Rmin. destruct (Rle_dec a b);
        [left|right; left]; reflexivity.
Qed.

Lemma fold_fmax_NaN (t : element) : fold_left fmax t NaN = NaN.
Proof. induction t as [|b t IH]; [reflexivity|exact IH]. Qed.

Lemma fold_fmax_In_NaN (t : element) (a : fl) :
  In NaN (a :: t) -> fold_left fmax t a = NaN.
Proof.
  revert a. induction t as [|b t IH]; intros a [E|Hin].
  - subst. reflexivity.
  - destruct Hin.
  - subst. apply fold_fmax_NaN.
  - cbn [fold_left]. apply IH. destruct Hin as [E|Hin].
    + left. subst. unfold fmax. destruct a; reflexivity.
    + right. assumption.
Qed.

Section LpNormExtremes.

Variable np_power : fl -> fl -> fl.

(** X12: with exponent [inf] the norm of a non-empty element with finite
    components is the largest absolute value of a component, with exponent
    [-inf] the smallest; a NaN component makes the maximum NaN; on an
    element without components both raise [ValueError]. *)
Theorem LpNorm_inf_is_max :
  forall (sp : TensorSpace) (a : R) (x : list R),
    (exists m,
        call np_power (LpNorm sp PInf) (finite (a :: x)) = Ok (Fin m) /\
        Forall (fun r => Rabs r <= m) (a :: x) /\
        In m (map Rabs (a :: x))) /\
    (exists m,
        call np_power (LpNorm sp NInf) (finite (a :: x)) = Ok (Fin m) /\
        Forall (fun r => m <= Rabs r) (a :: x) /\
        In m (map Rabs (a :: x))) /\
    (forall (b : fl) (y : element),
        In NaN (b :: y) ->
        call np_power (LpNorm sp PInf) (b :: y) = Ok NaN) /\
    call np_power (LpNorm sp PInf) [] = Err ValueError /\
    call np_power (LpNorm sp NInf) [] = Err ValueError.
Proof.
  intros sp a x. split; [|split; [|split; [|split; reflexivity]]].
  - exists (fold_left Rmax (map Rabs x) (Rabs a)).
    destruct (fold_Rmax_spec (map Rabs x) (Rabs a)) as [Hall Hin].
    split; [|split].
    + cbn [call]. unfold LpNorm_call. cbn [feqb isfinite].
      rewrite map_fabs_finite. cbn [map finite ufuncs_max].
      fold (finite (map Rabs x)). rewrite fold_fmax_finite. reflexivity.
    + apply Forall_forall. intros r Hr. rewrite Forall_forall in Hall.
      apply Hall. apply (in_map Rabs) in Hr. exact Hr.
    + exact Hin.
  - exists (fold_left Rmin (map Rabs x) (Rabs a)).
    destruct (fold_Rmin_spec (map Rabs x) (Rabs a)) as [Hall Hin].
    split; [|split].
    + cbn [call]. unfold LpNorm_call. cbn [feqb isfinite].
      rewrite map_fabs_finite. cbn [map finite ufuncs_min].
      fold (finite (map Rabs x)). rewrite fold_fmin_finite. reflexivity.
    + apply Forall_forall. intros r Hr. rewrite Forall_forall in Hall.
      apply Hall. apply (in_map Rabs) in Hr. exact Hr.
    + exact Hin.
  - intros b y Hin. cbn [call]. unfold LpNorm_call. cbn [feqb isfinite].
    cbn [map ufuncs_max]. f_equal. apply fold_fmax_In_NaN.
    change (In NaN (map fabs (b :: y))). apply in_map_iff.
    exists NaN. split; [reflexivity|assumption].
Qed.


(** X14: on an element with at least one component [LpNorm._call] raises
    [RuntimeError] exactly for the exponent NaN and [TypeError] exactly for
    the exponent 0; for every other exponent it returns a value. *)
Theorem LpNorm_call_errors :
  forall (sp : TensorSpace) (p : fl) (x : element),
    x <> [] ->
    (LpNorm_call np_power sp p x = Err RuntimeError <-> p = NaN) /\
    (LpNorm_call np_power sp p x = Err TypeError <-> p = Fin 0) /\
    (p <> NaN -> p <> Fin 0 ->
     exists v, LpNorm_call np_power sp p x = Ok v).
Proof.
  intros sp p x Hx. destruct x as [|b y]; [contradiction|]. clear Hx.
  unfold LpNorm_call.
  destruct p as [r| | |].
  - cbn [isfinite]. destruct (Req_dec_T r 0) as [->|Hr].
    + rewrite feqb_refl_Fin. cbn [space_inner not_equal].
      split; [split; discriminate|].
      split; [split; reflexivity|]. intros _ H. contradiction.
    + rewrite (feqb_Fin_neq r 0 Hr).
      assert (Hne : Fin r <> Fin 0) by (intros E; injection E; exact Hr).
      destruct (feqb (Fin r) (Fin 1)), (feqb (Fin r) (Fin 2));
        (split; [split; discriminate|];
         split; [split; [discriminate|intros E; contradiction]|];
         intros _ _; eexists; reflexivity).
  - cbn [feqb isfinite map ufuncs_max].
    split; [split; discriminate|].
    split; [split; discriminate|]. intros _ _. eexists. reflexivity.
  - cbn [feqb isfinite map ufuncs_min].
    split; [split; discriminate|].
    split; [split; discriminate|]. intros _ _. eexists. reflexivity.
  - cbn [feqb isfinite]. split; [split; reflexivity|].
    split; [split; discriminate|]. intros H. contradiction.
Qed.

End LpNormExtremes.

Lemma LpNorm_call_errors_witness :
  [Fin 0; NaN; Fin 5] <> [] /\
  (LpNorm_call (fun _ _ => NaN) (rn 3) (Fin 0) [Fin 0; NaN; Fin 5]
   = Err TypeError <-> Fin 0 = Fin 0).
Proof.
  split; [discriminate|].
  apply (LpNorm_call_errors (fun _ _ => NaN) (rn 3) (Fin 0)
           [Fin 0; NaN; Fin 5]). discriminate.
Defined.

(** ** The unit balls and the Fenchel-Young inequality of the 1-norm *)

Lemma fsum_In_NaN (x : element) : In NaN x -> fsum x = NaN.
Proof.
  induction x as [|a x IH]; intros Hin; [destruct Hin|].
  cbn [fsum fold_right]. fold (fsum x). destruct Hin as [->|Hin].
  - reflexivity.
  - rewrite IH by assumption. destruct a; reflexivity.
Qed.

Lemma Rdot_le_abs (x y : list R) :
  Forall (fun r => Rabs r <= 1) y -> Rdot x y <= Rsum (map Rabs x).
Proof.
  revert y. induction x as [|a x IH]; intros [|b y] Hy.
  - cbn. lra.
  - cbn. lra.
  - rewrite Rdot_nil_r. apply Rsum_abs_nonneg.
  - inversion Hy as [|? ? Hb Hy']; subst.
    cbn [map]. rewrite Rdot_cons, Rsum_cons. specialize (IH y Hy').
    pose proof (Rle_abs (a * b)) as Hab. rewrite Rabs_mult in Hab.
    pose proof (Rabs_pos a). pose proof (Rabs_pos b). nra.
Qed.

Section UnitBallFacts.

Variable np_power : fl -> fl -> fl.

Lemma LpNorm_call_1_finite (sp : TensorSpace) (x : list R) :
  length x = size sp ->
  LpNorm_call np_power sp (Fin 1) (finite x)
  = Ok (Fin (Rsum (map Rabs x))).
Proof. apply (L1Norm_finite np_power). Qed.


Lemma LpNorm_call_inf_finite (sp : TensorSpace) (a : R) (x : list R) :
  LpNorm_call np_power sp PInf (finite (a :: x))
  = Ok (Fin (fold_left Rmax (map Rabs x) (Rabs a))).
Proof.
  unfold LpNorm_call. cbn [feqb isfinite].
  rewrite map_fabs_finite. cbn [map finite ufuncs_max].
  fold (finite (map Rabs x)). rewrite fold_fmax_finite. reflexivity.
Qed.

Lemma Indicator_of_norm (sp : TensorSpace) (p : fl) (x : element) (n : R) :
  LpNorm_call np_power sp p x = Ok (Fin n) ->
  IndicatorLpUnitBall_call np_power sp p x
  = Ok (if Rle_dec n 1 then Fin 0 else PInf).
Proof.
  intros H. unfold IndicatorLpUnitBall_call. rewrite H. cbn.
  rdec; destruct (Rle_dec n 1); try reflexivity; lra.
Qed.

Lemma Indicator_zero_iff (sp : TensorSpace) (p : fl) (x : element) (n : R) :
  LpNorm_call np_power sp p x = Ok (Fin n) ->
  IndicatorLpUnitBall_call np_power sp p x = Ok (Fin 0) <-> n <= 1.
Proof.
  intros H. rewrite (Indicator_of_norm _ _ _ _ H).
  destruct (Rle_dec n 1); split; intros; try assumption; try reflexivity;
    try discriminate; contradiction.
Qed.


(** X16: an element with a NaN component is never rejected: for the
    exponents 1, 2 and [inf] the norm is NaN, the comparison with 1 fails
    and the indicator of the unit ball is 0. *)
Theorem IndicatorLpUnitBall_NaN_inside :
  forall (sp : TensorSpace) (p : fl) (x : element),
    in_space sp x -> In NaN x -> In p [Fin 1; Fin 2; PInf] ->
    call np_power (LpNorm sp p) x = Ok NaN /\
    call np_power (IndicatorLpUnitBall sp p) x = Ok (Fin 0).
Proof.
  intros sp p x Hx Hin Hp.
  assert (Hn : LpNorm_call np_power sp p x = Ok NaN).
  { destruct Hp as [<-|[<-|[<-|[]]]]; unfold LpNorm_call.
    - rewrite (feqb_Fin_neq 1 0) by lra. rewrite feqb_refl_Fin.
      rewrite inner_one by (unfold in_space; rewrite length_map; exact Hx).
      rewrite fsum_In_NaN; [reflexivity|].
      apply in_map_iff. exists NaN. split; [reflexivity|assumption].
    - rewrite (feqb_Fin_neq 2 0), (feqb_Fin_neq 2 1) by lra.
      rewrite feqb_refl_Fin. unfold inner. rewrite fsum_In_NaN; [reflexivity|].
      clear Hx. induction x as [|a x IH]; [destruct Hin|].
      rewrite vzip_cons. destruct Hin as [->|Hin];
        [left; reflexivity|right; apply IH, Hin].
    - cbn [feqb isfinite]. destruct x as [|b y]; [destruct Hin|].
      cbn [map ufuncs_max]. f_equal. apply fold_fmax_In_NaN.
      change (In NaN (map fabs (b :: y))). apply in_map_iff.
      exists NaN. split; [reflexivity|assumption]. }
  split; [exact Hn|]. cbn [call]. unfold IndicatorLpUnitBall_call.
  rewrite Hn. reflexivity.
Qed.

(** X17: the Fenchel-Young inequality between the 1-norm and its convex
    conjugate, the indicator of the unit ball of the maximum norm: for
    non-empty elements [x] and [y] with finite components, the inner
    product of [x] and [y] is at most the 1-norm of [x] plus the value of
    [convex_conj] at [y], which is 0 or [inf]. *)
Theorem L1Norm_Fenchel_Young :
  forall (sp : TensorSpace) (x y : list R),
    length x = size sp -> length y = size sp -> x <> [] ->
    exists fx fy,
      call np_power (L1Norm sp) (finite x) = Ok (Fin fx) /\
      call np_power (convex_conj (L1Norm sp)) (finite y) = Ok fy /\
      (fy = Fin 0 \/ fy = PInf) /\
      fleb (inner (finite x) (finite y)) (fadd (Fin fx) fy) = true.
Proof.
  intros sp x y Hx Hy Hne.
  assert (Hl : length x = length y) by congruence.
  destruct x as [|a x]; [contradiction|].
  destruct y as [|b y]; [discriminate|].
  rewrite inner_finite. cbn [call convex_conj exponent_of].
  rewrite conj_exponent_1.
  exists (Rsum (map Rabs (a :: x))).
  eexists. split; [apply LpNorm_call_1_finite, Hx|].
  split; [apply (Indicator_of_norm _ _ _ _ (LpNorm_call_inf_finite sp b y))|].
  destruct (Rle_dec _ 1) as [Hle|Hgt];
    [split; [left; reflexivity|]|split; [right|]; reflexivity].
  cbn [fadd fleb]. apply Rleb_le.
  enough (Rdot (a :: x) (b :: y) <= Rsum (map Rabs (a :: x))) by lra.
  apply Rdot_le_abs.
  destruct (fold_Rmax_spec (map Rabs y) (Rabs b)) as [Hall _].
  apply Forall_forall. intros r Hr. rewrite Forall_forall in Hall.
  apply (in_map Rabs) in Hr. specialize (Hall _ Hr). cbn beta in Hall.
  lra.
Qed.

End UnitBallFacts.


Lemma IndicatorLpUnitBall_NaN_inside_witness :
  in_space (rn 2) [NaN; Fin 7] /\ In NaN [NaN; Fin 7] /\
  In PInf [Fin 1; Fin 2; PInf] /\
  call (fun _ _ => NaN) (IndicatorLpUnitBall (rn 2) PInf) [NaN; Fin 7]
  = Ok (Fin 0).
Proof.
  split; [reflexivity|]. split; [left; reflexivity|].
  split; [right; right; left; reflexivity|].
  apply (IndicatorLpUnitBall_NaN_inside (fun _ _ => NaN) (rn 2) PInf
           [NaN; Fin 7]);
    [reflexivity|left; reflexivity|right; right; left; reflexivity].
Defined.

Lemma L1Norm_Fenchel_Young_witness :
  length [3; -4] = size (rn 2) /\ length [1; 1/2] = size (rn 2) /\
  [3; -4] <> [] /\
  exists fx fy,
    call (fun _ _ => NaN) (L1Norm (rn 2)) (finite [3; -4]) = Ok (Fin fx) /\
    call (fun _ _ => NaN) (convex_conj (L1Norm (rn 2))) (finite [1; 1/2])
    = Ok fy /\
    (fy = Fin 0 \/ fy = PInf) /\
    fleb (inner (finite [3; -4]) (finite [1; 1/2])) (fadd (Fin fx) fy)
    = true.
Proof.
  split; [reflexivity|]. split; [reflexivity|]. split; [discriminate|].
  apply (L1Norm_Fenchel_Young (fun _ _ => NaN) (rn 2) [3; -4] [1; 1/2]);
    [reflexivity|reflexivity|discriminate].
Defined.

(** ** The gradient of the 1-norm *)

Lemma Rdot_sign (x : list R) :
  Rdot x (map (fun r => if Rlt_dec 0 r then 1
                        else if Rlt_dec r 0 then -1 else 0) x)
  = Rsum (map Rabs x).
Proof.
  induction x as [|a x IH]; [reflexivity|].
  cbn [map]. rewrite Rdot_cons, Rsum_cons, IH. f_equal.
  destruct (Rlt_dec 0 a); [rewrite Rabs_pos_eq; lra|].
  destruct (Rlt_dec a 0); [rewrite Rabs_left; lra|].
  replace a with 0 by lra. rewrite Rabs_R0. lra.
Qed.

Section GradientFacts.

Variable np_power : fl -> fl -> fl.

(** X18: at the gradient the Fenchel-Young inequality is an equality: the
    gradient of the 1-norm at an element [x] with finite components, the
    vector of the signs of the components, lies in the unit ball of the
    conjugate functional, and its inner product with [x] is the 1-norm of
    [x]. *)
Theorem L1Norm_gradient_Fenchel_equality :
  forall (sp : TensorSpace) (x : list R),
    length x = size sp -> x <> [] ->
    exists grad g fx,
      LpNorm_gradient sp (Fin 1) = Ok grad /\
      value (grad (finite x)) = finite g /\
      Forall (fun s => s = 1 \/ s = -1 \/ s = 0) g /\
      call np_power (L1Norm sp) (finite x) = Ok (Fin fx) /\
      call np_power (convex_conj (L1Norm sp)) (finite g) = Ok (Fin 0) /\
      inner (finite x) (finite g) = Fin fx.
Proof.
  intros sp x Hx Hne. destruct x as [|a x]; [contradiction|].
  cbn [call convex_conj exponent_of]. unfold LpNorm_gradient.
  rewrite feqb_refl_Fin, conj_exponent_1.
  set (sgn := fun r : R => if Rlt_dec 0 r then 1
                           else if Rlt_dec r 0 then -1 else 0).
  assert (Hsgn : forall r, sgn r = 1 \/ sgn r = -1 \/ sgn r = 0).
  { intros r. unfold sgn. destruct (Rlt_dec 0 r); [left; reflexivity|].
    destruct (Rlt_dec r 0); [right; left|right; right]; reflexivity. }
  exists L1Gradient_call, (map sgn (a :: x)), (Rsum (map Rabs (a :: x))).
  split; [reflexivity|]. split.
  { unfold L1Gradient_call, finite. cbn [value]. rewrite !map_map.
    apply map_ext. intros r. unfold sgn. cbn [fsign].
    destruct (Rlt_dec 0 r); [reflexivity|].
    destruct (Rlt_dec r 0); reflexivity. }
  split.
  { apply Forall_forall. intros s Hs. apply in_map_iff in Hs.
    destruct Hs as [r [<- _]]. apply Hsgn. }
  split; [apply LpNorm_call_1_finite, Hx|]. split.
  - cbn [map]. apply (Indicator_zero_iff _ _ _ _ _
                        (LpNorm_call_inf_finite np_power sp (sgn a)
                           (map sgn x))).
    destruct (fold_Rmax_spec (map Rabs (map sgn x)) (Rabs (sgn a)))
      as [_ Hin].
    change (In (fold_left Rmax (map Rabs (map sgn x)) (Rabs (sgn a)))
              (map Rabs (map sgn (a :: x)))) in Hin.
    apply in_map_iff in Hin. destruct Hin as [s [<- Hs]].
    apply in_map_iff in Hs. destruct Hs as [r [<- _]].
    destruct (Hsgn r) as [E|[E|E]]; rewrite E;
      unfold Rabs; destruct (Rcase_abs _); lra.
  - rewrite inner_finite. f_equal. apply Rdot_sign.
Qed.

End GradientFacts.

Lemma L1Norm_gradient_Fenchel_equality_witness :
  length [3; -4] = size (rn 2) /\ [3; -4] <> [] /\
  exists grad g fx,
    LpNorm_gradient (rn 2) (Fin 1) = Ok grad /\
    value (grad (finite [3; -4])) = finite g /\
    Forall (fun s => s = 1 \/ s = -1 \/ s = 0) g /\
    call (fun _ _ => NaN) (L1Norm (rn 2)) (finite [3; -4]) = Ok (Fin fx) /\
    call (fun _ _ => NaN) (convex_conj (L1Norm (rn 2))) (finite g)
    = Ok (Fin 0) /\
    inner (finite [3; -4]) (finite g) = Fin fx.
Proof.
  split; [reflexivity|]. split; [discriminate|].
  apply (L1Norm_gradient_Fenchel_equality (fun _ _ => NaN) (rn 2) [3; -4]);
    [reflexivity|discriminate].
Defined.

(** ** The Huber functional with positive smoothing *)








Section HuberSmoothFacts.

Variable np_power : fl -> fl -> fl.



End HuberSmoothFacts.


(** ** The gradient of the Huber functional *)

Lemma sub_finite (x y : list R) :
  vzip fsub (finite x) (finite y)
  = finite (map (fun p => fst p - snd p) (combine x y)).
Proof. apply (vzip_finite fsub Rminus). reflexivity. Qed.

Lemma dist_finite (x y : list R) :
  dist (finite x) (finite y)
  = Fin (sqrt (Rdot (map (fun p => fst p - snd p) (combine x y))
                    (map (fun p => fst p - snd p) (combine x y)))).
Proof. unfold dist. rewrite sub_finite. apply norm_finite. Qed.








Section HuberGradientFacts.

Variable np_power : fl -> fl -> fl.



End HuberGradientFacts.


(** ** The Kullback-Leibler family: the default prior *)












(** ** The Kullback-Leibler divergence is a divergence *)








(** ** The gradients of the Kullback-Leibler functionals and of their
    conjugates are inverse to each other *)









(** ** The Fenchel-Young inequality in the Kullback-Leibler family *)














(** ** The box indicator *)

Lemma Rdot_diff_self (x : list R) :
  Rdot (map (fun p => fst p - snd p) (combine x x))
       (map (fun p => fst p - snd p) (combine x x)) = 0.
Proof.
  induction x as [|a x IH]; [reflexivity|].
  cbn [combine map fst snd]. rewrite Rdot_cons, IH. lra.
Qed.

Lemma diff_zero_eq (x y : list R) :
  length x = length y ->
  Rdot (map (fun p => fst p - snd p) (combine x y))
       (map (fun p => fst p - snd p) (combine x y)) = 0 ->
  x = y.
Proof.
  revert y. induction x as [|a x IH]; intros [|b y] Hl H0;
    try discriminate; [reflexivity|].
  cbn [combine map fst snd] in H0. rewrite Rdot_cons in H0.
  pose proof (Rdot_self_nonneg
                (map (fun p => fst p - snd p) (combine x y))) as Hpos.
  pose proof (Rle_0_sqr (a - b)) as Hsq. unfold Rsqr in Hsq.
  f_equal.
  - assert (E : (a - b) * (a - b) = 0) by lra.
    apply Rmult_integral in E. lra.
  - apply IH; [injection Hl; auto|lra].
Qed.

(** The indicator is 0 exactly where the projection changes nothing. *)
Lemma IndicatorBox_call_fixed (proj : element -> element) (x px : list R) :
  proj (finite x) = finite px -> length px = length x ->
  IndicatorBox_call proj (finite x) = if list_eq_dec Req_dec_T px x
                                      then Fin 0 else PInf.
Proof.
  intros Hp Hl. unfold IndicatorBox_call. rewrite Hp, dist_finite.
  unfold fgtb. cbn [fltb].
  destruct (list_eq_dec Req_dec_T px x) as [->|Hne].
  - rewrite Rdot_diff_self, sqrt_0. rdec. reflexivity.
  - set (D := Rdot _ _). pose proof (sqrt_pos D) as Hs.
    destruct (Req_dec_T (sqrt D) 0) as [E|E].
    + exfalso. apply Hne. symmetry. apply diff_zero_eq; [congruence|].
      apply sqrt_eq_0; [apply Rdot_self_nonneg|exact E].
    + rdec. reflexivity.
Qed.

Lemma map_fixed_iff (f : R -> R) (x : list R) :
  map f x = x <-> Forall (fun r => f r = r) x.
Proof.
  induction x as [|a x IH]; [split; [constructor|reflexivity]|].
  cbn [map]. split.
  - intros E. injection E as Ea Ex. constructor; [exact Ea|apply IH, Ex].
  - intros H. inversion H; subst. f_equal; [assumption|apply IH; assumption].
Qed.

Lemma Forall_iff_ext {A : Type} (P Q : A -> Prop) (l : list A) :
  (forall a, P a <-> Q a) -> Forall P l <-> Forall Q l.
Proof.
  intros H. split; apply Forall_impl; intros a; apply H.
Qed.

Lemma box_projection_finite (lo hi s : R) (x : list R) :
  proximal_box_constraint (Some (Fin lo)) (Some (Fin hi)) (Fin s) (finite x)
  = finite (map (fun r => Rmin (Rmax r lo) hi) x).
Proof.
  unfold proximal_box_constraint, finite. rewrite !map_map.
  apply map_ext. intros r. rewrite fmax_Fin, fmin_Fin. reflexivity.
Qed.

Lemma nonneg_projection_finite (s : R) (x : list R) :
  proximal_box_constraint (Some (Fin 0)) None (Fin s) (finite x)
  = finite (map (fun r => Rmax r 0) x).
Proof.
  unfold proximal_box_constraint, finite. rewrite !map_map.
  apply map_ext. intros r. rewrite fmax_Fin. reflexivity.
Qed.

Lemma clip_fixed_iff (lo hi r : R) :
  lo <= hi -> Rmin (Rmax r lo) hi = r <-> lo <= r <= hi.
Proof.
  intros Hle. unfold Rmin, Rmax.
  destruct (Rle_dec r lo); destruct (Rle_dec _ hi);
    (split; [intros E; split; lra|intros [H1 H2]; lra]).
Qed.

Lemma Rmax_0_fixed_iff (r : R) : Rmax r 0 = r <-> 0 <= r.
Proof. unfold Rmax. destruct (Rle_dec r 0); split; intros; lra. Qed.

(** X26: with finite bounds [lower <= upper] the box indicator, which
    tests whether the projection onto the box moves its argument, is 0 at
    an element with finite components exactly when every component lies
    between the bounds, and [inf] otherwise; [IndicatorNonnegativity] is 0
    exactly when no component is negative.  An element with a NaN
    component is never rejected. *)
Theorem IndicatorBox_call_spec :
  forall (sp : TensorSpace) (lo hi : R) (x : list R),
    lo <= hi ->
    let box := mkIndicatorBox sp (Some (Fin lo)) (Some (Fin hi)) in
    (IndicatorBox_eval box (finite x) = Fin 0 <->
     Forall (fun r => lo <= r <= hi) x) /\
    (IndicatorBox_eval box (finite x) = PInf <->
     ~ Forall (fun r => lo <= r <= hi) x) /\
    (IndicatorBox_eval (IndicatorNonnegativity sp) (finite x) = Fin 0 <->
     Forall (fun r => 0 <= r) x) /\
    (IndicatorBox_eval (IndicatorNonnegativity sp) (finite x) = PInf <->
     ~ Forall (fun r => 0 <= r) x) /\
    (forall (f : IndicatorBox) (y : element),
        In NaN y -> IndicatorBox_eval f y = Fin 0).
Proof.
  intros sp lo hi x Hle box.
  assert (Hbox : IndicatorBox_eval box (finite x)
                 = if list_eq_dec Req_dec_T
                        (map (fun r => Rmin (Rmax r lo) hi) x) x
                   then Fin 0 else PInf).
  { apply IndicatorBox_call_fixed; [apply box_projection_finite|].
    apply length_map. }
  assert (Hnn : IndicatorBox_eval (IndicatorNonnegativity sp) (finite x)
                = if list_eq_dec Req_dec_T (map (fun r => Rmax r 0) x) x
                  then Fin 0 else PInf).
  { apply IndicatorBox_call_fixed; [apply nonneg_projection_finite|].
    apply length_map. }
  assert (Hfix1 : map (fun r => Rmin (Rmax r lo) hi) x = x <->
                  Forall (fun r => lo <= r <= hi) x).
  { rewrite map_fixed_iff. apply Forall_iff_ext. intros r.
    apply clip_fixed_iff, Hle. }
  assert (Hfix2 : map (fun r => Rmax r 0) x = x <->
                  Forall (fun r => 0 <= r) x).
  { rewrite map_fixed_iff. apply Forall_iff_ext. intros r.
    apply Rmax_0_fixed_iff. }
  rewrite Hbox, Hnn. rewrite <- Hfix1, <- Hfix2.
  split; [|split; [|split; [|split]]].
  1-4: clear Hbox Hnn Hfix1 Hfix2;
    destruct (list_eq_dec _ _ _); split; intros H;
    try reflexivity; try discriminate; try assumption; contradiction.
  - intros f y Hin. unfold IndicatorBox_eval, IndicatorBox_call, dist, norm.
    assert (Hn : inner (vzip fsub y (IndicatorBox_proximal f (Fin 1) y))
                       (vzip fsub y (IndicatorBox_proximal f (Fin 1) y))
                 = NaN).
    { unfold inner. apply fsum_In_NaN.
      unfold IndicatorBox_proximal, proximal_box_constraint.
      induction y as [|a y IH]; [destruct Hin|].
      cbn [map]. rewrite !vzip_cons. destruct Hin as [->|Hin].
      - left. destruct (lower f) as [l|], (upper f) as [u|]; cbn;
          try reflexivity; destruct l; reflexivity.
      - right. apply IH, Hin. }
    rewrite Hn. reflexivity.
Qed.

Lemma IndicatorBox_call_spec_witness :
  0 <= 2 /\
  (IndicatorBox_eval (mkIndicatorBox (rn 3) (Some (Fin 0)) (Some (Fin 2)))
                     (finite [0; 1; 2]) = Fin 0 <->
   Forall (fun r => 0 <= r <= 2) [0; 1; 2]) /\
  (IndicatorBox_eval (mkIndicatorBox (rn 3) (Some (Fin 0)) (Some (Fin 2)))
                     (finite [0; 1; 3]) = PInf <->
   ~ Forall (fun r => 0 <= r <= 2) [0; 1; 3]).
Proof.
  split; [lra|]. split.
  - apply (IndicatorBox_call_spec (rn 3) 0 2 [0; 1; 2]). lra.
  - apply (IndicatorBox_call_spec (rn 3) 0 2 [0; 1; 3]). lra.
Defined.

(** ** The sum constraint and the simplex *)


Lemma sum_test_zero_target (s t : fl) :
  t <> PInf -> fleb (fabs (fsub (fdiv s (Fin 0)) (Fin 1))) t = false.
Proof.
  intros Ht. destruct s as [r| | |]; cbn; rdec; cbn;
    destruct t; try reflexivity; try contradiction; congruence.
Qed.


(** X28: with the target 0 the relative test divides by zero: unless the
    tolerance is [inf], [IndicatorSumConstraint] and [IndicatorSimplex] are
    [inf] at every element, also at those whose components sum to 0. *)
Theorem IndicatorSumConstraint_zero_target :
  forall (sp : TensorSpace) (rtol : option fl) (x : element),
    rtol <> Some PInf ->
    IndicatorSumConstraint_call
      (IndicatorSumConstraint_init sp (Fin 0) rtol) x = PInf /\
    IndicatorSimplex_call (IndicatorSimplex_init sp (Fin 0) rtol) x = PInf.
Proof.
  intros sp rtol x Hr.
  unfold IndicatorSumConstraint_call, IndicatorSimplex_call.
  cbn [IndicatorSimplex_init IndicatorSumConstraint_init diameter sum_rtol
         sum_value isc_sum_rtol].
  assert (Ht : match rtol with
               | Some t => t
               | None =>
                   if dtype_eqb (dtype_of sp) float64
                   then fmul (Fin 1e-10) (Fin (INR (size sp)))
                   else fmul (Fin 1e-6) (Fin (INR (size sp)))
               end <> PInf).
  { destruct rtol as [t|]; [congruence|].
    destruct (dtype_eqb _ _); cbn; discriminate. }
  rewrite (sum_test_zero_target _ _ Ht). split; reflexivity.
Qed.


Lemma IndicatorSumConstraint_zero_target_witness :
  None <> Some PInf /\
  IndicatorSumConstraint_call
    (IndicatorSumConstraint_init (rn 2) (Fin 0) None) [Fin 1; Fin (-1)]
  = PInf.
Proof.
  split; [discriminate|].
  apply (IndicatorSumConstraint_zero_target (rn 2) None [Fin 1; Fin (-1)]).
  discriminate.
Defined.

(** ** The squared L2-norm *)




